(** * mstdn_rssfeed_parser: the handler of [src/index.js] and its segmenter

    A shallow embedding of the Lambda handler that polls a Mastodon RSS
    feed, cuts every new post into tweet-sized segments and posts them to
    IFTTT, followed by the properties of its checkpoint, its segmenter
    and its dispatcher.

    JavaScript strings are sequences of UTF-16 code units; the handler only
    slices them, measures them and searches them for the separator, so a code
    unit is modelled by an [ascii] character and a string by [list ascii]. *)

From Stdlib Require Import String Ascii.
From Stdlib Require Import List ZArith Lia Bool Arith Permutation.
Import ListNotations.

Local Open Scope nat_scope.

(** ** JavaScript values and string primitives *)

Module JS.

Definition jsstring := list ascii.

Definition str (s : string) : jsstring := list_ascii_of_string s.

(** A JavaScript number as the handler meets it: the result of [parseInt]
    or of [Date.prototype.getTime], an integer or [NaN]. *)
Inductive number :=
| NaN
| Num (z : Z).

(** [a < b] on numbers: any comparison with [NaN] is false. *)
Definition lt (a b : number) : bool :=
  match a, b with
  | Num x, Num y => (x <? y)%Z
  | _, _ => false
  end.

(** [!v] for a value that is [null] ([None]) or a number: [null], [NaN]
    and [0] are the falsy ones. *)
Definition not (v : option number) : bool :=
  match v with
  | None => true
  | Some NaN => true
  | Some (Num z) => (z =? 0)%Z
  end.

(** [s.substring(a, b)]: both indices are clamped to the length and swapped
    when out of order. *)
Definition substring (s : jsstring) (a b : nat) : jsstring :=
  firstn (Nat.max a b - Nat.min a b) (skipn (Nat.min a b) s).

(** [s.substring(a)]. *)
Definition substring_from (s : jsstring) (a : nat) : jsstring := skipn a s.

Fixpoint startsWith (pat s : jsstring) : bool :=
  match pat, s with
  | [], _ => true
  | _ :: _, [] => false
  | p :: pat', c :: s' => Ascii.eqb p c && startsWith pat' s'
  end.

(** [s.indexOf(pat)]: the first position where [pat] occurs, [None] for
    [-1]. *)
Fixpoint indexOf (s pat : jsstring) : option nat :=
  if startsWith pat s then Some 0
  else match s with
       | [] => None
       | _ :: s' => option_map S (indexOf s' pat)
       end.

Definition toLowerCaseUnit (c : ascii) : ascii :=
  let n := nat_of_ascii c in
  if (65 <=? n) && (n <=? 90) then ascii_of_nat (n + 32) else c.

(** [s.toLowerCase()]; outside [A-Z] no code unit is mapped to a letter of
    the tag the handler compares with, so only that range is folded. *)
Definition toLowerCase (s : jsstring) : jsstring := map toLowerCaseUnit s.

Definition eqb (a b : jsstring) : bool :=
  if list_eq_dec ascii_dec a b then true else false.

(** [l.slice(0, e)]: a [NaN] end counts as [0], a negative one is taken
    from the end of the array. *)
Definition slice0 {A : Type} (l : list A) (e : number) : list A :=
  match e with
  | NaN => []
  | Num z =>
      if (z <? 0)%Z then firstn (length l - Z.to_nat (- z)) l
      else firstn (Z.to_nat z) l
  end.

End JS.

Import JS.

(** ** The segmenter (the [while] loop over [remainingContent]) *)

(** How an iteration of the loop produced its segment: by the first branch
    (a separator found before the limit) or by the second one (a prefix
    shortened to the weight limit), which may then swallow a separator that
    starts right at the end of the segment. *)
Inductive cut :=
| AtSeparator
| AtLength (separatorFollows : bool).

Section Segmenter.

(** [TwitterTextParser.parseTweet(s).weightedLength], a function of the
    twitter-text library. *)
Variable weightedLength : jsstring -> nat.

(** The handler has ['===='] and [280]; [280] bounds the index of the
    separator, the length of the candidate prefix and its weight alike. *)
Variable separator : jsstring.
Variable limit : nat.

(** The inner [while (segmentLength > 280)] loop. *)
Fixpoint shorten (fuel : nat) (potentialSegment : jsstring) : option jsstring :=
  match fuel with
  | 0 => None
  | S fuel' =>
      if limit <? weightedLength potentialSegment
      then shorten fuel'
             (substring potentialSegment 0 (length potentialSegment - 1))
      else Some potentialSegment
  end.

(** One iteration of the outer loop on a non-empty [remainingContent]:
    the segment pushed, how it was cut and the new [remainingContent].
    [None] when the inner loop does not come back. *)
Definition iteration (remainingContent : jsstring)
  : option (jsstring * cut * jsstring) :=
  let byLength :=
    let potentialSegment := substring remainingContent 0 limit in
    match shorten (S (length potentialSegment)) potentialSegment with
    | None => None
    | Some segment =>
        match indexOf remainingContent separator with
        | Some separatorIndex =>
            if separatorIndex =? length segment
            then Some (segment, AtLength true,
                       substring_from remainingContent
                         (separatorIndex + length separator))
            else Some (segment, AtLength false,
                       substring_from remainingContent (length segment))
        | None =>
            Some (segment, AtLength false,
                  substring_from remainingContent (length segment))
        end
    end in
  match indexOf remainingContent separator with
  | Some separatorIndex =>
      if separatorIndex <? limit
      then Some (substring remainingContent 0 separatorIndex, AtSeparator,
                 substring_from remainingContent
                   (separatorIndex + length separator))
      else byLength
  | None => byLength
  end.

(** The outer loop, with the cut of every segment recorded. *)
Fixpoint segmentTrace (fuel : nat) (remainingContent : jsstring)
  : option (list (jsstring * cut)) :=
  match fuel with
  | 0 => None
  | S fuel' =>
      if 0 <? length remainingContent
      then match iteration remainingContent with
           | None => None
           | Some (segment, how, remainingContent') =>
               option_map (cons (segment, how))
                 (segmentTrace fuel' remainingContent')
           end
      else Some []
  end.

(** The outer loop as the handler has it: [contentSegments] only. *)
Fixpoint segmentLoop (fuel : nat) (remainingContent : jsstring)
  : option (list jsstring) :=
  match fuel with
  | 0 => None
  | S fuel' =>
      if 0 <? length remainingContent
      then match iteration remainingContent with
           | None => None
           | Some (segment, _, remainingContent') =>
               option_map (cons segment) (segmentLoop fuel' remainingContent')
           end
      else Some []
  end.

(** [contentSegments] for a post: every iteration that comes back with a
    shorter [remainingContent] is counted once, so the length of the
    content and one more is all the fuel a run that ends can use. *)
Definition contentSegments (content : jsstring) : option (list jsstring) :=
  segmentLoop (S (length content)) content.

(** The text the loop has consumed for one segment. *)
Definition consumed (entry : jsstring * cut) : jsstring :=
  match snd entry with
  | AtSeparator | AtLength true => fst entry ++ separator
  | AtLength false => fst entry
  end.

Definition reconstruct (trace : list (jsstring * cut)) : jsstring :=
  concat (map consumed trace).

End Segmenter.

(** ** Feed items, payloads and the outside world *)

(** An [<item>] of the parsed feed, with the fields the handler reads:
    [link[0]], the value of [new Date(pubDate[0]).getTime()],
    [description[0]], [item['media:content']] and the [category] array when
    there is one.  [media_content] is [None] when the item has no
    [media:content] element; otherwise it holds what
    [item['media:content'][0].$.url] reads from the first one: the [url]
    attribute, or [None] for [undefined] when the attributes of the element
    have no [url].  The element is taken to have attributes, as [link],
    [pubDate] and [description] are taken to be there: without them the
    read throws. *)
Record FeedItem := {
  link : jsstring;
  pubDate : number;
  description : jsstring;
  media_content : option (option jsstring);
  category : option (list jsstring)
}.

(** The two IFTTT events a segment can be posted to. *)
Inductive eventName :=
| IFTTT_EVENT_NAME
| IFTTT_EVENT_NAME_WITH_IMAGE.

(** The JSON body of a webhook request; a key whose value is [undefined],
    or that was never set, is not in the body ([None]). *)
Record postData := {
  value1 : jsstring;
  value2 : option jsstring
}.

(** A call of [axios.post], with the item whose callback issued it. *)
Record request := {
  req_item : FeedItem;
  req_event : eventName;
  req_body : postData
}.

Inductive logEntry :=
| AnErrorOccurred          (* the [catch] of the [try] block *)
| ErrorInPromiseAll.       (* the [.catch] of the promise chain, debug only *)

Inductive settled :=
| Fulfilled
| Rejected.

(** What a run leaves behind: how the promise returned by [handler] settles,
    the webhook requests in the order they were issued, the value sent with
    [PutItemCommand] when the run gets that far (whatever the table answers),
    and the errors logged.  The value dumps of the debug mode are left out. *)
Record Outcome := {
  returned : settled;
  posted : list request;
  stored : list number;
  logged : list logEntry
}.

(** The collaborators of a run.  A request that rejects is [None] or
    [false]; [parseString] is [None] also when the document has no
    [rss.channel[0].item] array, as for a feed without items, which throws
    inside the [try] block just the same.  [interleave] is the order in which the event loop runs the
    requests of the item callbacks, given the requests of each callback. *)
Record World := {
  LOG_LEVEL_debug : bool;
  MAX_ITEMS : number;
  axios_get : option jsstring;
  ddb_get : option (option number);
  parseString : jsstring -> option (list FeedItem);
  htmlToText : jsstring -> jsstring;
  parseTweet_weightedLength : jsstring -> nat;
  axios_post : eventName -> postData -> bool;
  ddb_put : number -> bool;
  interleave : list (list request) -> list request
}.

(** All the ways of merging the sequences of several callbacks. *)
Inductive merged {A : Type} : list (list A) -> list A -> Prop :=
| merged_done : forall ls, concat ls = [] -> merged ls []
| merged_next : forall before x l after t,
    merged (before ++ l :: after) t ->
    merged (before ++ (x :: l) :: after) (x :: t).

(** [Array.prototype.map] runs every [async] callback up to its first
    [await], so the first request of every item is issued in the order of
    the array; what follows each [await] is merged in any order. *)
Definition eventLoopOrder {A : Type} (tasks : list (list A)) (t : list A) : Prop :=
  exists later,
    t = flat_map (firstn 1) tasks ++ later /\
    merged (map (skipn 1) tasks) later.

(** The order in which every callback is completed before the next. *)
Definition oneByOne {A : Type} (tasks : list (list A)) : list A :=
  flat_map (firstn 1) tasks ++ concat (map (skipn 1) tasks).

(** ** The handler *)

Section Handler.

Variable w : World.

Definition segments (content : jsstring) : option (list jsstring) :=
  contentSegments (parseTweet_weightedLength w) (str "====") 280 content.

(** [item.category && item.category.find(cat => cat.toLowerCase() === 'nocrosspost')] *)
Definition nocrosspost (item : FeedItem) : bool :=
  match category item with
  | None => false
  | Some cats =>
      existsb (fun cat => JS.eqb (toLowerCase cat) (str "nocrosspost")) cats
  end.

(** [!lastProcessedPubDate || lastProcessedPubDate < pubDate] *)
Definition newer (lastProcessedPubDate : option number) (pubDate : number) : bool :=
  JS.not lastProcessedPubDate
  || match lastProcessedPubDate with
     | Some last => JS.lt last pubDate
     | None => false
     end.

(** [if (!newProcessedPubDate || newProcessedPubDate < pubDate) newProcessedPubDate = pubDate] *)
Definition renew (newProcessedPubDate : option number) (pubDate : number)
  : option number :=
  if newer newProcessedPubDate pubDate then Some pubDate
  else newProcessedPubDate.

(** The [for (const segment of contentSegments)] loop: the requests it
    issues.  A request that rejects throws out of the loop. *)
Fixpoint forSegments (item : FeedItem) (firstSegment : bool)
    (contentSegments : list jsstring) : list request :=
  match contentSegments with
  | [] => []
  | segment :: rest =>
      let withMedia :=
        firstSegment && match media_content item with
                        | Some _ => true
                        | None => false
                        end in
      let body := {| value1 := segment;
                     value2 := if withMedia
                               then match media_content item with
                                    | Some url => url
                                    | None => None
                                    end
                               else None |} in
      let iftttEventName :=
        if withMedia then IFTTT_EVENT_NAME_WITH_IMAGE else IFTTT_EVENT_NAME in
      let req := {| req_item := item; req_event := iftttEventName; req_body := body |} in
      if axios_post w iftttEventName body
      then req :: forSegments item false rest
      else [req]
  end.

(** The callback given to [latestItems.map]: the requests it issues, each
    preceded by the renewal of [newProcessedPubDate] with the date of the
    item.  [None] when the segmenter does not come back. *)
Definition callback (lastProcessedPubDate : option number) (item : FeedItem)
  : option (list request) :=
  if nocrosspost item then Some []
  else if newer lastProcessedPubDate (pubDate item)
       then option_map (forSegments item true)
              (segments (htmlToText w (description item)))
       else Some [].

Fixpoint mapCallbacks (lastProcessedPubDate : option number)
    (latestItems : list FeedItem) : option (list (list request)) :=
  match latestItems with
  | [] => Some []
  | item :: rest =>
      match callback lastProcessedPubDate item with
      | None => None
      | Some reqs =>
          option_map (cons reqs) (mapCallbacks lastProcessedPubDate rest)
      end
  end.

Definition latestItems (items : list FeedItem) : list FeedItem :=
  rev (slice0 items (MAX_ITEMS w)).

(** [newProcessedPubDate] once every callback has settled. *)
Definition newProcessedPubDate (lastProcessedPubDate : option number)
    (issued : list request) : option number :=
  fold_left renew (map (fun r => pubDate (req_item r)) issued)
    lastProcessedPubDate.

Definition debugLog (e : logEntry) : list logEntry :=
  if LOG_LEVEL_debug w then [e] else [].

(** The [.then] of [Promise.allSettled]: [null.toString()] throws before
    any [PutItemCommand] is built; that and a rejected put end in the
    [.catch], which logs in debug mode only. *)
Definition commit (issued : list request) (new : option number) : Outcome :=
  match new with
  | None =>
      {| returned := Fulfilled; posted := issued; stored := [];
         logged := debugLog ErrorInPromiseAll |}
  | Some v =>
      {| returned := Fulfilled; posted := issued; stored := [v];
         logged := if ddb_put w v then [] else debugLog ErrorInPromiseAll |}
  end.

(** [handler]; [None] when it never settles. *)
Definition handler : option Outcome :=
  match axios_get w with
  | None =>
      Some {| returned := Rejected; posted := []; stored := []; logged := [] |}
  | Some data =>
      match ddb_get w with
      | None =>
          Some {| returned := Rejected; posted := []; stored := []; logged := [] |}
      | Some lastProcessedPubDate =>
          match parseString w data with
          | None =>
              Some {| returned := Fulfilled; posted := []; stored := [];
                      logged := [AnErrorOccurred] |}
          | Some items =>
              match mapCallbacks lastProcessedPubDate (latestItems items) with
              | None => None
              | Some tasks =>
                  let issued := interleave w tasks in
                  Some (commit issued
                          (newProcessedPubDate lastProcessedPubDate issued))
              end
          end
      end
  end.

End Handler.

(** ** Notions the properties are stated with *)

(** The larger of a checkpoint and a date, an absent checkpoint being below
    every date. *)
Definition maxDate (checkpoint : option number) (date : number) : option number :=
  match checkpoint with
  | None => Some date
  | Some c => if JS.lt c date then Some date else Some c
  end.

(** The newest of a checkpoint and a sequence of dates. *)
Definition highWater (checkpoint : option number) (dates : list number)
  : option number :=
  fold_left maxDate dates checkpoint.

(** [r] is the newest of [acc] and [ds]: one of them, and below none. *)
Definition newest (acc : option number) (ds : list number) (r : option number)
  : Prop :=
  match r with
  | None => acc = None /\ ds = []
  | Some m =>
      (acc = Some m \/ In m ds)
      /\ (forall c, acc = Some c -> JS.lt m c = false)
      /\ (forall d, In d ds -> JS.lt m d = false)
  end.

(** A date as [getTime] gives it for a well-formed [pubDate] not before 1970. *)
Definition goodDate (d : number) : Prop :=
  match d with
  | Num z => (0 <= z)%Z
  | NaN => False
  end.

Definition goodCheckpoint (c : option number) : Prop :=
  match c with
  | None => True
  | Some d => goodDate d
  end.

(** The items for which the callback issues a request: not tagged, newer
    than the checkpoint, and with at least one segment. *)
Definition dispatches (w : World) (lastProcessedPubDate : option number)
    (item : FeedItem) : bool :=
  negb (nocrosspost item)
  && newer lastProcessedPubDate (pubDate item)
  && match segments w (htmlToText w (description item)) with
     | Some (_ :: _) => true
     | _ => false
     end.


Definition dateOf (r : request) : number := pubDate (req_item r).

(** The assumption on twitter-text under which the segmenter ends. *)
Definition singleUnitFits (w : World) : Prop :=
  forall u : ascii, parseTweet_weightedLength w [u] <= 280.

(** The event loop of a world merges the callbacks as [map] and [await]
    allow. *)
Definition fairWorld (w : World) : Prop :=
  forall tasks, eventLoopOrder tasks (interleave w tasks).

(** ** Sample runs *)

Definition post (pub : Z) (text : string) (media : option string)
    (tags : option (list string)) : FeedItem :=
  {| link := str "https://example.social/@a/1";
     pubDate := Num pub;
     description := str text;
     media_content := option_map (fun url => Some (str url)) media;
     category := option_map (map str) tags |}.

(** A run in which every collaborator answers, the feed holds [items], the
    stored checkpoint is [checkpoint], posts are plain text weighing one per
    code unit, and the callbacks are completed one after the other. *)
Definition quietWorld (checkpoint : option number) (items : list FeedItem) : World :=
  {| LOG_LEVEL_debug := false;
     MAX_ITEMS := Num 20;
     axios_get := Some (str "<rss/>");
     ddb_get := Some checkpoint;
     parseString := fun _ => Some items;
     htmlToText := fun html => html;
     parseTweet_weightedLength := @length ascii;
     axios_post := fun _ _ => true;
     ddb_put := fun _ => true;
     interleave := @oneByOne request |}.

(** The same with a feed that cannot be fetched. *)
Definition unreachableFeed (w : World) : World :=
  {| LOG_LEVEL_debug := LOG_LEVEL_debug w;
     MAX_ITEMS := MAX_ITEMS w;
     axios_get := None;
     ddb_get := ddb_get w;
     parseString := parseString w;
     htmlToText := htmlToText w;
     parseTweet_weightedLength := parseTweet_weightedLength w;
     axios_post := axios_post w;
     ddb_put := ddb_put w;
     interleave := interleave w |}.

(** A feed whose only post, newer than the checkpoint, is tagged. *)
Definition taggedFeed : list FeedItem :=
  [post 150 "hello" None (Some ["nocrosspost"%string])].

Definition taggedRun : World := quietWorld (Some (Num 100)) taggedFeed.

(** A post dated at the epoch, and the checkpoint its dispatch has left. *)
Definition epochRun : World :=
  quietWorld (Some (Num 0)) [post 0 "hi" None None].

(** A post that is a picture and no text. *)
Definition pictureOnly : FeedItem :=
  post 100 "" (Some "https://files.example.social/1.png"%string) None.

Definition pictureRun : World := quietWorld None [pictureOnly].

(** A post with a picture and a text in two parts. *)
Definition illustratedPost : FeedItem :=
  post 100 "a====b" (Some "https://files.example.social/2.png"%string) None.

Definition illustratedRun : World := quietWorld None [illustratedPost].



(** A post that begins with the separator. *)
Definition leadingSeparator : FeedItem := post 100 "====A" None None.

Definition leadingSeparatorRun : World := quietWorld None [leadingSeparator].

(** Two posts, the newer first as in the feed. *)
Definition recentPost : FeedItem := post 100 "second" None None.
Definition olderPost : FeedItem := post 50 "first" None None.

Definition twoPostsRun : World := quietWorld None [recentPost; olderPost].

(** A weighting that counts every code unit twice, as twitter-text does for
    CJK text. *)
Definition doubleWeight (s : jsstring) : nat := 2 * length s.

(** The webhook has answered the request. *)
Definition accepted (w : World) (r : request) : Prop :=
  axios_post w (req_event r) (req_body r) = true.

(** A world with other answers of the webhook and another order of the
    event loop, everything else being the same. *)
Definition withDelivery (w : World)
    (answers : eventName -> postData -> bool)
    (order : list (list request) -> list request) : World :=
  {| LOG_LEVEL_debug := LOG_LEVEL_debug w;
     MAX_ITEMS := MAX_ITEMS w;
     axios_get := axios_get w;
     ddb_get := ddb_get w;
     parseString := parseString w;
     htmlToText := htmlToText w;
     parseTweet_weightedLength := parseTweet_weightedLength w;
     axios_post := answers;
     ddb_put := ddb_put w;
     interleave := order |}.

(** A world whose [MAX_ITEMS] is another number. *)
Definition withMaxItems (w : World) (n : number) : World :=
  {| LOG_LEVEL_debug := LOG_LEVEL_debug w;
     MAX_ITEMS := n;
     axios_get := axios_get w;
     ddb_get := ddb_get w;
     parseString := parseString w;
     htmlToText := htmlToText w;
     parseTweet_weightedLength := parseTweet_weightedLength w;
     axios_post := axios_post w;
     ddb_put := ddb_put w;
     interleave := interleave w |}.

(** A weighting that counts 23 for a text that begins with a link, as
    twitter-text does for a link of any length, and one per code unit
    otherwise. *)
Definition linkWeight (s : jsstring) : nat :=
  if startsWith (str "http") s then 23 else length s.

(** A text cut every [n] code units. *)
Fixpoint chunks (fuel n : nat) (s : jsstring) : list jsstring :=
  match fuel with
  | 0 => []
  | S fuel' =>
      match s with
      | [] => []
      | _ :: _ => firstn n s :: chunks fuel' n (skipn n s)
      end
  end.

(** A webhook that rejects every text but "a". *)
Definition onlyA (_ : eventName) (body : postData) : bool :=
  JS.eqb (value1 body) (str "a").

(** Three posts with text, the newest first, over a checkpoint of 60. *)
Definition threePosts : list FeedItem :=
  [post 100 "third" None None; post 70 "second====more" None None;
   post 50 "first" None None].

Definition threePostsRun : World := quietWorld (Some (Num 60)) threePosts.

(** ** The first variant of the handler

    The file holds an earlier [handler] as well, which posts every new item
    whole, with its link and its date, in the order of the feed. *)

Module FirstVariant.

(** The JSON body of its webhook request; [media] is not in the body
    ([None]) when the [url] read from the element is [undefined]. *)
Record postData := {
  permalink : jsstring;
  published : jsstring;
  content : jsstring;
  media : option jsstring
}.

Record request := {
  req_item : FeedItem;
  req_body : postData
}.

Record Outcome := {
  returned : settled;
  posted : list request;
  stored : list number;
  logged : list logEntry
}.

Section Handler.

Variable w : World.

(** [item.pubDate[0]], the text that [pubDate] is the time of. *)
Variable pubDate0 : FeedItem -> jsstring.

Definition postDataOf (item : FeedItem) : postData :=
  {| permalink := link item;
     published := pubDate0 item;
     content := description item;
     media := match media_content item with
              | Some url => url
              | None => Some (str "no_image_card.png")
              end |}.

(** The callback given to [latestItems.map]: the request it issues, after
    the renewal of [newProcessedPubDate], when the item is newer than the
    checkpoint.  The answer of the webhook is returned to
    [Promise.allSettled], which ignores it. *)
Definition callback (lastProcessedPubDate : option number) (item : FeedItem)
  : option request :=
  if newer lastProcessedPubDate (pubDate item)
  then Some {| req_item := item; req_body := postDataOf item |}
  else None.

Definition latestItems (items : list FeedItem) : list FeedItem :=
  slice0 items (MAX_ITEMS w).

(** Every callback runs up to its only [await] inside [map], so the
    requests are issued in the order of the array. *)
Definition issued (lastProcessedPubDate : option number)
    (items : list FeedItem) : list request :=
  flat_map (fun item => match callback lastProcessedPubDate item with
                        | Some r => [r]
                        | None => []
                        end)
           (latestItems items).

Definition newProcessedPubDate (lastProcessedPubDate : option number)
    (reqs : list request) : option number :=
  fold_left renew (map (fun r => pubDate (req_item r)) reqs)
    lastProcessedPubDate.

Definition commit (reqs : list request) (new : option number) : Outcome :=
  match new with
  | None =>
      {| returned := Fulfilled; posted := reqs; stored := [];
         logged := debugLog w ErrorInPromiseAll |}
  | Some v =>
      {| returned := Fulfilled; posted := reqs; stored := [v];
         logged := if ddb_put w v then [] else debugLog w ErrorInPromiseAll |}
  end.

Definition handler : Outcome :=
  match axios_get w with
  | None =>
      {| returned := Rejected; posted := []; stored := []; logged := [] |}
  | Some data =>
      match ddb_get w with
      | None =>
          {| returned := Rejected; posted := []; stored := []; logged := [] |}
      | Some lastProcessedPubDate =>
          match parseString w data with
          | None =>
              {| returned := Fulfilled; posted := []; stored := [];
                 logged := [AnErrorOccurred] |}
          | Some items =>
              let reqs := issued lastProcessedPubDate items in
              commit reqs (newProcessedPubDate lastProcessedPubDate reqs)
          end
      end
  end.

End Handler.

End FirstVariant.

(** ** String primitives *)

Lemma substring_prefix (s : jsstring) (k : nat) : substring s 0 k = firstn k s.
Proof.
  unfold substring. rewrite Nat.max_0_l, Nat.min_0_l, Nat.sub_0_r. reflexivity.
Qed.

Lemma startsWith_app (pat rest : jsstring) : startsWith pat (pat ++ rest) = true.
Proof.
  induction pat as [|p pat IH]; simpl; [reflexivity|].
  rewrite Ascii.eqb_refl. exact IH.
Qed.

Lemma startsWith_split (pat s : jsstring) :
  startsWith pat s = true -> s = pat ++ skipn (length pat) s.
Proof.
  revert s. induction pat as [|p pat IH]; intros s H; simpl in *.
  - reflexivity.
  - destruct s as [|c s]; [discriminate|].
    apply andb_prop in H. destruct H as [Hc Hs].
    apply Ascii.eqb_eq in Hc. subst c. f_equal. apply IH, Hs.
Qed.

Lemma indexOf_unfold (s pat : jsstring) :
  indexOf s pat =
  if startsWith pat s then Some 0
  else match s with
       | [] => None
       | _ :: s' => option_map S (indexOf s' pat)
       end.
Proof. destruct s; reflexivity. Qed.

(** Where [indexOf] finds the pattern, the pattern is. *)
Lemma indexOf_split (s pat : jsstring) (i : nat) :
  indexOf s pat = Some i ->
  s = firstn i s ++ pat ++ skipn (i + length pat) s.
Proof.
  revert i. induction s as [|c s IH]; intros i H; rewrite indexOf_unfold in H.
  - destruct (startsWith pat []) eqn:E; [|discriminate].
    injection H as <-. apply startsWith_split in E. exact E.
  - destruct (startsWith pat (c :: s)) eqn:E.
    + injection H as <-. apply startsWith_split in E. exact E.
    + destruct (indexOf s pat) as [j|] eqn:Ej; [|discriminate].
      injection H as <-. simpl. f_equal. apply IH. reflexivity.
Qed.

Lemma indexOf_bound (s pat : jsstring) (i : nat) :
  indexOf s pat = Some i -> i + length pat <= length s.
Proof.
  revert i. induction s as [|c s IH]; intros i H; rewrite indexOf_unfold in H.
  - destruct (startsWith pat []) eqn:E; [|discriminate].
    injection H as H. apply startsWith_split in E.
    apply (f_equal (@length ascii)) in E. rewrite length_app in E. lia.
  - destruct (startsWith pat (c :: s)) eqn:E.
    + injection H as H. apply startsWith_split in E.
      apply (f_equal (@length ascii)) in E. rewrite length_app in E. lia.
    + destruct (indexOf s pat) as [k|] eqn:Ek; [|discriminate].
      injection H as H. specialize (IH k eq_refl). simpl. lia.
Qed.

(** [indexOf] returns the first occurrence: the pattern starts nowhere
    before it. *)
Lemma indexOf_first (s pat : jsstring) (i j : nat) :
  indexOf s pat = Some i -> j < i -> startsWith pat (skipn j s) = false.
Proof.
  revert i j. induction s as [|c s IH]; intros i j H Hj; rewrite indexOf_unfold in H.
  - destruct (startsWith pat []); [injection H as H; lia | discriminate].
  - destruct (startsWith pat (c :: s)) eqn:E; [injection H as H; lia|].
    destruct (indexOf s pat) as [k|] eqn:Ek; [|discriminate].
    injection H as H. destruct j as [|j]; simpl; [exact E|].
    apply (IH k); [reflexivity | lia].
Qed.

Lemma indexOf_here (pat rest : jsstring) : indexOf (pat ++ rest) pat = Some 0.
Proof. rewrite indexOf_unfold, startsWith_app. reflexivity. Qed.

Lemma indexOf_None (s pat : jsstring) (j : nat) :
  indexOf s pat = None -> startsWith pat (skipn j s) = false.
Proof.
  revert j. induction s as [|c s IH]; intros j H; rewrite indexOf_unfold in H.
  - destruct (startsWith pat []) eqn:E; [discriminate|].
    destruct j; exact E.
  - destruct (startsWith pat (c :: s)) eqn:E; [discriminate|].
    destruct (indexOf s pat) eqn:Ek; [discriminate|].
    destruct j as [|j]; simpl; [exact E | apply IH; reflexivity].
Qed.

Lemma indexOf_found (s pat : jsstring) (i : nat) :
  indexOf s pat = Some i -> startsWith pat (skipn i s) = true.
Proof.
  revert i. induction s as [|c s IH]; intros i H; rewrite indexOf_unfold in H.
  - destruct (startsWith pat []) eqn:E; [|discriminate].
    injection H as <-. exact E.
  - destruct (startsWith pat (c :: s)) eqn:E.
    + injection H as <-. exact E.
    + destruct (indexOf s pat) as [k|] eqn:Ek; [|discriminate].
      injection H as <-. simpl. apply IH. reflexivity.
Qed.

(** An occurrence in a prefix is an occurrence in the whole. *)
Lemma startsWith_in_prefix (pat s : jsstring) (j k : nat) :
  startsWith pat (skipn j (firstn k s)) = true ->
  startsWith pat (skipn j s) = true.
Proof.
  intros H. apply startsWith_split in H.
  rewrite <- (firstn_skipn k s) at 1. rewrite skipn_app, H, <- app_assoc.
  apply startsWith_app.
Qed.

(** A prefix that ends before the first occurrence is over does not hold
    the pattern. *)
Lemma prefix_without_pattern (s pat : jsstring) (k : nat) :
  pat <> [] ->
  (forall j, j < k -> startsWith pat (skipn j s) = false) ->
  indexOf (firstn k s) pat = None.
Proof.
  intros Hpat Hnone.
  destruct (indexOf (firstn k s) pat) as [j|] eqn:E; [|reflexivity].
  pose proof (indexOf_bound _ _ _ E) as Hb.
  apply indexOf_found, startsWith_in_prefix in E.
  rewrite Hnone in E; [discriminate|].
  rewrite length_firstn in Hb.
  destruct pat; [congruence | simpl in Hb; lia].
Qed.

Lemma indexOf_None_intro (s pat : jsstring) :
  (forall j, startsWith pat (skipn j s) = false) -> indexOf s pat = None.
Proof.
  intros H. destruct (indexOf s pat) as [i|] eqn:E; [|reflexivity].
  apply indexOf_found in E. rewrite H in E. discriminate.
Qed.

(** What follows in a text without the pattern is without it too. *)
Lemma indexOf_None_skipn (s pat : jsstring) (k : nat) :
  indexOf s pat = None -> indexOf (skipn k s) pat = None.
Proof.
  intros H. apply indexOf_None_intro. intros j.
  rewrite skipn_skipn. apply indexOf_None, H.
Qed.

(** ** The segmenter: the inner loop *)

Section SegmenterFacts.

Variable weightedLength : jsstring -> nat.
Variable separator : jsstring.
Variable limit : nat.

Local Abbreviation inner := (shorten weightedLength limit).
Local Abbreviation step := (iteration weightedLength separator limit).
Local Abbreviation trace := (segmentTrace weightedLength separator limit).
Local Abbreviation loop := (segmentLoop weightedLength separator limit).

(** What the inner loop returns is a prefix of the candidate, within the
    limit. *)
Lemma shorten_sound (fuel : nat) (p c : jsstring) :
  inner fuel p = Some c ->
  weightedLength c <= limit /\ c = firstn (length c) p.
Proof.
  revert p. induction fuel as [|fuel IH]; intros p H; simpl in H; [discriminate|].
  destruct (limit <? weightedLength p) eqn:E.
  - rewrite substring_prefix in H. apply IH in H. destruct H as [Hw Hp].
    split; [exact Hw|].
    assert (Hl : length c <= length p - 1).
    { rewrite Hp, length_firstn, length_firstn. lia. }
    rewrite Hp at 1. rewrite firstn_firstn.
    replace (Nat.min (length c) (length p - 1)) with (length c) by lia.
    reflexivity.
  - injection H as <-. apply Nat.ltb_ge in E. split; [exact E|].
    symmetry. apply firstn_all.
Qed.

Lemma shorten_more_fuel (fuel fuel' : nat) (p c : jsstring) :
  inner fuel p = Some c -> fuel <= fuel' -> inner fuel' p = Some c.
Proof.
  revert fuel' p. induction fuel as [|fuel IH]; intros fuel' p H Hle;
    simpl in H; [discriminate|].
  destruct fuel' as [|fuel']; [lia|]. simpl.
  destruct (limit <? weightedLength p); [|exact H].
  apply IH; [exact H | lia].
Qed.

(** Once the candidate is empty the loop can only stop at once or spin. *)
Lemma shorten_empty (fuel : nat) :
  limit < weightedLength [] -> inner fuel [] = None.
Proof.
  intros H. induction fuel as [|fuel IH]; simpl; [reflexivity|].
  apply Nat.ltb_lt in H. rewrite H. rewrite substring_prefix. exact IH.
Qed.

(** The fuel of [iteration] is all the inner loop can use: with more of it
    the answer is the same. *)
Lemma shorten_fuel_enough (fuel : nat) (p c : jsstring) :
  inner fuel p = Some c -> inner (S (length p)) p = Some c.
Proof.
  revert p. induction fuel as [|fuel IH]; intros p H; [discriminate|].
  simpl in H. cbn [shorten].
  destruct (limit <? weightedLength p) eqn:E; [|exact H].
  rewrite substring_prefix in *.
  destruct p as [|u p].
  - apply Nat.ltb_lt in E. rewrite shorten_empty in H by exact E. discriminate.
  - apply IH in H. rewrite length_firstn in H.
    eapply shorten_more_fuel; [exact H|]. simpl length. lia.
Qed.

Section Weights.

(** The assumption under which the loops end: a single code unit is
    always within the limit. *)
Hypothesis single_unit_fits : forall u : ascii, weightedLength [u] <= limit.

Lemma shorten_total (fuel : nat) (p : jsstring) :
  p <> [] -> length p <= fuel ->
  exists c, inner fuel p = Some c /\ c <> [].
Proof.
  revert p. induction fuel as [|fuel IH]; intros p Hp Hl.
  - destruct p; [congruence | simpl in Hl; lia].
  - simpl. destruct (limit <? weightedLength p) eqn:E.
    + rewrite substring_prefix.
      destruct p as [|u [|v p]]; [congruence | |].
      * apply Nat.ltb_lt in E. specialize (single_unit_fits u). lia.
      * apply IH.
        -- simpl. discriminate.
        -- rewrite length_firstn. simpl in *. lia.
    + exists p. split; [reflexivity | exact Hp].
Qed.

End Weights.

(** ** The segmenter: one iteration *)

Ltac by_cases_of_iteration r H :=
  unfold iteration in H; rewrite ?substring_prefix in H;
  unfold substring_from in H;
  destruct (indexOf r separator) as [i|] eqn:Ei;
  [destruct (i <? limit) eqn:Elt;
   [ | destruct (inner (S (length (firstn limit r))) (firstn limit r))
         as [c|] eqn:Ec; [|discriminate];
       destruct (i =? length c) eqn:Eeq ]
  | destruct (inner (S (length (firstn limit r))) (firstn limit r))
      as [c|] eqn:Ec; [|discriminate] ];
  rewrite ?substring_prefix in H; try discriminate H;
  injection H as ? ? ?; subst.

Lemma shorten_prefix_of_content (fuel : nat) (r c : jsstring) :
  inner fuel (firstn limit r) = Some c ->
  weightedLength c <= limit /\ c = firstn (length c) r /\ length c <= limit.
Proof.
  intros H. apply shorten_sound in H. destruct H as [Hw Hp].
  split; [exact Hw|].
  assert (Hl : length c <= limit).
  { rewrite Hp, !length_firstn. lia. }
  split; [|exact Hl].
  rewrite Hp at 1. rewrite firstn_firstn.
  replace (Nat.min (length c) limit) with (length c) by lia. reflexivity.
Qed.

(** An iteration takes its segment, and the separator when it swallows one,
    off the front of [remainingContent]. *)
Lemma iteration_consumed (r seg r' : jsstring) (how : cut) :
  step r = Some (seg, how, r') -> r = consumed separator (seg, how) ++ r'.
Proof.
  intros H. by_cases_of_iteration r H; unfold consumed; simpl.
  - rewrite <- app_assoc. apply indexOf_split, Ei.
  - apply shorten_prefix_of_content in Ec. destruct Ec as (_ & Hc & Hl).
    apply Nat.eqb_eq in Eeq. subst i.
    pose proof (indexOf_split _ _ _ Ei) as Hs. rewrite <- Hc in Hs.
    rewrite <- app_assoc. exact Hs.
  - apply shorten_prefix_of_content in Ec. destruct Ec as (_ & Hc & Hl).
    pose proof (firstn_skipn (length seg) r) as Hs. rewrite <- Hc in Hs.
    symmetry. exact Hs.
  - apply shorten_prefix_of_content in Ec. destruct Ec as (_ & Hc & Hl).
    pose proof (firstn_skipn (length seg) r) as Hs. rewrite <- Hc in Hs.
    symmetry. exact Hs.
Qed.

(** A segment of the second branch is within the limit. *)
Lemma iteration_bound (r seg r' : jsstring) (b : bool) :
  step r = Some (seg, AtLength b, r') -> weightedLength seg <= limit.
Proof.
  intros H. by_cases_of_iteration r H;
    apply shorten_prefix_of_content in Ec; apply Ec.
Qed.

(** The first branch is taken exactly when the separator starts before the
    limit. *)
Lemma iteration_at_separator (r : jsstring) (i : nat) :
  indexOf r separator = Some i -> i < limit ->
  step r = Some (firstn i r, AtSeparator, skipn (i + length separator) r).
Proof.
  intros Hi Hlt. unfold iteration. rewrite Hi.
  apply Nat.ltb_lt in Hlt. rewrite Hlt, substring_prefix. reflexivity.
Qed.

Section Progress.

Hypothesis single_unit_fits : forall u : ascii, weightedLength [u] <= limit.
Hypothesis separator_not_empty : separator <> [].
Hypothesis limit_positive : 0 < limit.

(** Under these assumptions every iteration comes back with a shorter
    [remainingContent]. *)
Lemma iteration_progress (r : jsstring) :
  r <> [] ->
  exists seg how r', step r = Some (seg, how, r') /\ length r' < length r.
Proof.
  intros Hr.
  assert (Hsep : 0 < length separator).
  { destruct separator; [congruence | simpl; lia]. }
  assert (Hlen : 0 < length r).
  { destruct r; [congruence | simpl; lia]. }
  assert (Hcand : exists c, inner (S (length (firstn limit r))) (firstn limit r) = Some c
                            /\ c <> []).
  { apply shorten_total; [exact single_unit_fits | | lia].
    destruct r; [congruence|]. destruct limit; [lia | discriminate]. }
  destruct Hcand as (c & Ec & Hc).
  assert (Hcl : 0 < length c).
  { destruct c; [congruence | simpl; lia]. }
  unfold iteration. rewrite !substring_prefix, Ec. unfold substring_from.
  destruct (indexOf r separator) as [i|] eqn:Ei.
  - destruct (i <? limit).
    + do 3 eexists. split; [reflexivity|]. rewrite length_skipn. lia.
    + destruct (i =? length c);
        do 3 eexists; (split; [reflexivity|]); rewrite length_skipn; lia.
  - do 3 eexists. split; [reflexivity|]. rewrite length_skipn. lia.
Qed.

End Progress.

(** ** The segmenter: the outer loop *)

(** [contentSegments] is the trace without its marks. *)
Lemma segmentLoop_trace (fuel : nat) (r : jsstring) :
  loop fuel r = option_map (map fst) (trace fuel r).
Proof.
  revert r. induction fuel as [|fuel IH]; intros r; simpl; [reflexivity|].
  destruct (0 <? length r); [|reflexivity].
  destruct (step r) as [[[seg how] r']|]; [|reflexivity].
  rewrite IH. destruct (trace fuel r'); reflexivity.
Qed.

Lemma segmentTrace_more_fuel (fuel fuel' : nat) (r : jsstring) tr :
  trace fuel r = Some tr -> fuel <= fuel' -> trace fuel' r = Some tr.
Proof.
  revert fuel' r tr. induction fuel as [|fuel IH]; intros fuel' r tr H Hle;
    simpl in H; [discriminate|].
  destruct fuel' as [|fuel']; [lia|]. simpl.
  destruct (0 <? length r); [|exact H].
  destruct (step r) as [[[seg how] r']|]; [|discriminate].
  destruct (trace fuel r') as [tr'|] eqn:E; [|discriminate].
  rewrite (IH fuel' r' tr' E) by lia. exact H.
Qed.

(** Whatever the loop has consumed, put back in order, is the content. *)
Lemma segmentTrace_reconstruct (fuel : nat) (r : jsstring) tr :
  trace fuel r = Some tr -> reconstruct separator tr = r.
Proof.
  revert r tr. induction fuel as [|fuel IH]; intros r tr H; simpl in H;
    [discriminate|].
  destruct (0 <? length r) eqn:El.
  - destruct (step r) as [[[seg how] r']|] eqn:Es; [|discriminate].
    destruct (trace fuel r') as [tr'|] eqn:E; [|discriminate].
    injection H as <-. unfold reconstruct. simpl.
    fold (reconstruct separator tr'). rewrite (IH r' tr' E).
    symmetry. apply iteration_consumed, Es.
  - injection H as <-. apply Nat.ltb_ge in El.
    destruct r; [reflexivity | simpl in El; lia].
Qed.

Lemma segmentTrace_bound (fuel : nat) (r : jsstring) tr :
  trace fuel r = Some tr ->
  Forall (fun e => snd e <> AtSeparator -> weightedLength (fst e) <= limit) tr.
Proof.
  revert r tr. induction fuel as [|fuel IH]; intros r tr H; simpl in H;
    [discriminate|].
  destruct (0 <? length r).
  - destruct (step r) as [[[seg how] r']|] eqn:Es; [|discriminate].
    destruct (trace fuel r') as [tr'|] eqn:E; [|discriminate].
    injection H as <-. constructor; [|apply (IH r'), E].
    simpl. destruct how as [|b]; [congruence|].
    intros _. apply (iteration_bound _ _ _ _ Es).
  - injection H as <-. constructor.
Qed.

(** A run of the loop that ends has shortened [remainingContent] at every
    iteration, so the fuel of [contentSegments] is all it can use. *)
Lemma segmentTrace_fuel_enough (fuel : nat) (r : jsstring) tr :
  trace fuel r = Some tr -> trace (S (length r)) r = Some tr.
Proof.
  revert r tr. induction fuel as [|fuel IH]; intros r tr H; [discriminate|].
  pose proof H as Hfull. simpl in H. cbn [segmentTrace].
  destruct (0 <? length r) eqn:El; [|exact H].
  destruct (step r) as [[[seg how] r']|] eqn:Es; [|discriminate].
  destruct (trace fuel r') as [tr'|] eqn:E; [|discriminate].
  injection H as <-.
  pose proof (iteration_consumed _ _ _ _ Es) as Hc.
  assert (Hlen : length r = length (consumed separator (seg, how)) + length r').
  { rewrite Hc at 1. apply length_app. }
  destruct (consumed separator (seg, how)) as [|u cs] eqn:Econs.
  - simpl in Hc. subst r'. exfalso.
    pose proof (segmentTrace_more_fuel _ (S fuel) _ _ E (Nat.le_succ_diag_r _)) as E'.
    rewrite Hfull in E'. injection E' as E'.
    apply (f_equal (@length _)) in E'. simpl in E'. lia.
  - apply IH in E.
    rewrite (segmentTrace_more_fuel _ (length r) _ _ E); [reflexivity|].
    simpl in Hlen. lia.
Qed.

(** No segment holds the separator. *)
Lemma iteration_segment_clean (r seg r' : jsstring) (how : cut) :
  separator <> [] ->
  step r = Some (seg, how, r') -> indexOf seg separator = None.
Proof.
  intros Hsep H. by_cases_of_iteration r H.
  - apply prefix_without_pattern; [exact Hsep|].
    intros j Hj. apply (indexOf_first _ _ _ _ Ei Hj).
  - apply shorten_prefix_of_content in Ec. destruct Ec as (_ & Hc & Hl).
    apply Nat.eqb_eq in Eeq.
    rewrite Hc. apply prefix_without_pattern; [exact Hsep|].
    intros j Hj. apply (indexOf_first _ _ _ _ Ei). lia.
  - apply shorten_prefix_of_content in Ec. destruct Ec as (_ & Hc & Hl).
    apply Nat.ltb_ge in Elt.
    rewrite Hc. apply prefix_without_pattern; [exact Hsep|].
    intros j Hj. apply (indexOf_first _ _ _ _ Ei). lia.
  - apply shorten_prefix_of_content in Ec. destruct Ec as (_ & Hc & Hl).
    rewrite Hc. apply prefix_without_pattern; [exact Hsep|].
    intros j _. apply indexOf_None, Ei.
Qed.

Lemma segmentLoop_clean (fuel : nat) (r : jsstring) (segs : list jsstring) :
  separator <> [] ->
  loop fuel r = Some segs ->
  Forall (fun seg => indexOf seg separator = None) segs.
Proof.
  intros Hsep. revert r segs.
  induction fuel as [|fuel IH]; intros r segs H; simpl in H; [discriminate|].
  destruct (0 <? length r).
  - destruct (step r) as [[[seg how] r']|] eqn:Es; [|discriminate].
    destruct (loop fuel r') as [segs'|] eqn:E; [|discriminate].
    injection H as <-. constructor; [|apply (IH r'), E].
    apply (iteration_segment_clean _ _ _ _ Hsep Es).
  - injection H as <-. constructor.
Qed.

(** Either branch gives a segment of at most [limit] code units. *)
Lemma iteration_length (r seg r' : jsstring) (how : cut) :
  step r = Some (seg, how, r') -> length seg <= limit.
Proof.
  intros H. by_cases_of_iteration r H;
    try (apply shorten_prefix_of_content in Ec; apply Ec).
  apply Nat.ltb_lt in Elt. rewrite length_firstn. lia.
Qed.

(** The separator after a segment of the second branch is swallowed only
    when it starts at [limit], after a candidate that was not shortened. *)
Lemma iteration_boundary (r seg r' : jsstring) :
  step r = Some (seg, AtLength true, r') ->
  length seg = limit /\ indexOf r separator = Some limit
  /\ seg = firstn limit r.
Proof.
  intros H. remember (AtLength true) as how eqn:Ehow.
  by_cases_of_iteration r H; try discriminate.
  apply shorten_prefix_of_content in Ec. destruct Ec as (_ & Hc & Hl).
  apply Nat.eqb_eq in Eeq. apply Nat.ltb_ge in Elt.
  assert (Hi : length seg = limit) by lia.
  split; [exact Hi|]. split.
  - f_equal. lia.
  - rewrite <- Hi. exact Hc.
Qed.

Lemma iteration_swallow (r : jsstring) :
  indexOf r separator = Some limit ->
  weightedLength (firstn limit r) <= limit ->
  step r = Some (firstn limit r, AtLength true,
                 skipn (limit + length separator) r).
Proof.
  intros Hi Hw. pose proof (indexOf_bound _ _ _ Hi) as Hb.
  unfold iteration. rewrite Hi, Nat.ltb_irrefl, substring_prefix.
  cbn [shorten]. apply Nat.ltb_ge in Hw. rewrite Hw.
  rewrite length_firstn.
  replace (Nat.min limit (length r)) with limit by lia.
  rewrite Nat.eqb_refl. reflexivity.
Qed.

(** Without a separator ahead and with a candidate that fits, the segment
    is the first [limit] code units. *)
Lemma iteration_chunk (r : jsstring) :
  indexOf r separator = None ->
  weightedLength (firstn limit r) <= limit ->
  step r = Some (firstn limit r, AtLength false, skipn limit r).
Proof.
  intros Hi Hw. unfold iteration. rewrite Hi, substring_prefix.
  cbn [shorten]. apply Nat.ltb_ge in Hw. rewrite Hw.
  unfold substring_from. rewrite length_firstn.
  destruct (Nat.le_ge_cases limit (length r)) as [Hle|Hge].
  - rewrite Nat.min_l by exact Hle. reflexivity.
  - rewrite Nat.min_r by exact Hge.
    rewrite skipn_all, (skipn_all2 r Hge). reflexivity.
Qed.

Lemma segmentTrace_lengths (fuel : nat) (r : jsstring) tr :
  trace fuel r = Some tr -> Forall (fun e => length (fst e) <= limit) tr.
Proof.
  revert r tr. induction fuel as [|fuel IH]; intros r tr H; simpl in H;
    [discriminate|].
  destruct (0 <? length r).
  - destruct (step r) as [[[seg how] r']|] eqn:Es; [|discriminate].
    destruct (trace fuel r') as [tr'|] eqn:E; [|discriminate].
    injection H as <-. constructor; [|apply (IH r'), E].
    apply (iteration_length _ _ _ _ Es).
  - injection H as <-. constructor.
Qed.

(** A run that ends has taken at least one code unit at every iteration,
    so it has no more segments than the content has code units. *)
Lemma segmentTrace_count (fuel : nat) (r : jsstring) tr :
  trace fuel r = Some tr -> length tr <= length r.
Proof.
  revert r tr. induction fuel as [|fuel IH]; intros r tr H; [discriminate|].
  pose proof H as Hfull. simpl in H.
  destruct (0 <? length r) eqn:El; [|injection H as <-; simpl; lia].
  destruct (step r) as [[[seg how] r']|] eqn:Es; [|discriminate].
  destruct (trace fuel r') as [tr'|] eqn:E; [|discriminate].
  injection H as <-.
  pose proof (iteration_consumed _ _ _ _ Es) as Hc.
  assert (Hlen : length r = length (consumed separator (seg, how)) + length r').
  { rewrite Hc at 1. apply length_app. }
  destruct (consumed separator (seg, how)) as [|u cs] eqn:Econs.
  - simpl in Hc. subst r'. exfalso.
    pose proof (segmentTrace_more_fuel _ (S fuel) _ _ E (Nat.le_succ_diag_r _)) as E'.
    rewrite Hfull in E'. injection E' as E'.
    apply (f_equal (@length _)) in E'. simpl in E'. lia.
  - apply IH in E. simpl in *. lia.
Qed.

Section Termination.

Hypothesis single_unit_fits : forall u : ascii, weightedLength [u] <= limit.
Hypothesis separator_not_empty : separator <> [].
Hypothesis limit_positive : 0 < limit.

Lemma segmentTrace_total (fuel : nat) (r : jsstring) :
  length r < fuel -> exists tr, trace fuel r = Some tr.
Proof.
  revert r. induction fuel as [|fuel IH]; intros r Hl; [lia|]. simpl.
  destruct (0 <? length r) eqn:El; [|eexists; reflexivity].
  assert (Hr : r <> []).
  { intros ->. discriminate. }
  destruct (iteration_progress single_unit_fits separator_not_empty
              limit_positive r Hr) as (seg & how & r' & Es & Hshort).
  rewrite Es. destruct (IH r') as [tr' E]; [lia|].
  rewrite E. eexists. reflexivity.
Qed.

(** A segment of the second branch is not empty. *)
Lemma iteration_not_empty (r seg r' : jsstring) (b : bool) :
  r <> [] -> step r = Some (seg, AtLength b, r') -> seg <> [].
Proof.
  intros Hr H.
  assert (Hcand : exists c, inner (S (length (firstn limit r))) (firstn limit r) = Some c
                            /\ c <> []).
  { apply shorten_total; [exact single_unit_fits | | lia].
    destruct r; [congruence|]. destruct limit; [lia | discriminate]. }
  destruct Hcand as (c' & Ec' & Hc').
  by_cases_of_iteration r H; congruence.
Qed.

Lemma segmentTrace_not_empty (fuel : nat) (r : jsstring) tr :
  trace fuel r = Some tr ->
  Forall (fun e => snd e <> AtSeparator -> fst e <> []) tr.
Proof.
  revert r tr. induction fuel as [|fuel IH]; intros r tr H; simpl in H;
    [discriminate|].
  destruct (0 <? length r) eqn:El.
  - destruct (step r) as [[[seg how] r']|] eqn:Es; [|discriminate].
    destruct (trace fuel r') as [tr'|] eqn:E; [|discriminate].
    injection H as <-. constructor; [|apply (IH r'), E].
    simpl. destruct how as [|b]; [congruence|]. intros _.
    apply (iteration_not_empty r seg r' b); [|exact Es].
    intros ->. discriminate.
  - injection H as <-. constructor.
Qed.

End Termination.

End SegmenterFacts.

(** ** The order of the requests *)

Lemma merged_Permutation {A : Type} (ls : list (list A)) (t : list A) :
  merged ls t -> Permutation t (concat ls).
Proof.
  induction 1 as [ls H | before x l after t _ IH].
  - rewrite H. constructor.
  - rewrite concat_app in *. simpl in *.
    apply Permutation_cons_app. exact IH.
Qed.

Lemma firsts_rests_Permutation {A : Type} (tasks : list (list A)) :
  Permutation (flat_map (firstn 1) tasks ++ concat (map (skipn 1) tasks))
              (concat tasks).
Proof.
  induction tasks as [|task tasks IH]; simpl; [constructor|].
  destruct task as [|x l]; simpl; [exact IH|].
  constructor.
  rewrite Permutation_app_swap_app. apply Permutation_app_head. exact IH.
Qed.

Lemma eventLoopOrder_Permutation {A : Type} (tasks : list (list A)) (t : list A) :
  eventLoopOrder tasks t -> Permutation t (concat tasks).
Proof.
  intros (later & -> & Hm).
  apply merged_Permutation in Hm.
  rewrite Hm. apply firsts_rests_Permutation.
Qed.

Lemma merged_concat {A : Type} (ls : list (list A)) : merged ls (concat ls).
Proof.
  induction ls as [|l ls IH]; simpl.
  - constructor. reflexivity.
  - induction l as [|x l IHl]; simpl.
    + clear - IH. induction IH as [ls H | before x l after t _ IHm].
      * constructor. simpl. exact H.
      * apply (merged_next ([] :: before)). exact IHm.
    + apply (merged_next []). exact IHl.
Qed.

(** Completing the callbacks one after the other is one of the orders the
    event loop can take. *)
Lemma oneByOne_eventLoopOrder {A : Type} (tasks : list (list A)) :
  eventLoopOrder tasks (oneByOne tasks).
Proof.
  exists (concat (map (skipn 1) tasks)). split; [reflexivity|].
  apply merged_concat.
Qed.

Lemma quietWorld_fair (checkpoint : option number) (items : list FeedItem) :
  fairWorld (quietWorld checkpoint items).
Proof. intros tasks. apply oneByOne_eventLoopOrder. Qed.

(** ** The dispatcher loop *)

Section Dispatcher.

Variable w : World.

Lemma forSegments_item (item : FeedItem) (first : bool) (segs : list jsstring) :
  Forall (fun r => req_item r = item) (forSegments w item first segs).
Proof.
  revert first. induction segs as [|seg segs IH]; intros first; simpl.
  - constructor.
  - destruct (axios_post w _ _); constructor; try reflexivity;
      [apply IH | constructor].
Qed.

Lemma forSegments_nil (item : FeedItem) (first : bool) (segs : list jsstring) :
  forSegments w item first segs = [] -> segs = [].
Proof.
  destruct segs as [|seg segs]; [reflexivity|]. simpl.
  destruct (axios_post w _ _); discriminate.
Qed.


(** Without media nothing carries media. *)
Lemma forSegments_no_media (item : FeedItem) (first : bool) (segs : list jsstring) :
  media_content item = None ->
  Forall (fun r => value2 (req_body r) = None /\ req_event r = IFTTT_EVENT_NAME)
         (forSegments w item first segs).
Proof.
  intros Hm. revert first. induction segs as [|seg segs IH]; intros first; simpl;
    [constructor|].
  rewrite Hm, andb_false_r. simpl.
  destruct (axios_post w _ _); constructor; simpl; auto.
Qed.

(** When no request rejects, every segment is posted, in order. *)
Lemma forSegments_all_posted (item : FeedItem) (first : bool) (segs : list jsstring) :
  (forall e b, axios_post w e b = true) ->
  map (fun r => value1 (req_body r)) (forSegments w item first segs) = segs.
Proof.
  intros Hok. revert first. induction segs as [|seg segs IH]; intros first; simpl;
    [reflexivity|].
  rewrite Hok. simpl. f_equal. apply IH.
Qed.


End Dispatcher.

(** ** The checkpoint *)

Lemma goodDate_Num (d : number) :
  goodDate d -> exists z, d = Num z /\ (0 <= z)%Z.
Proof. destruct d as [|z]; simpl; [tauto | eauto]. Qed.

(** On dates not before 1970 the renewal of the handler takes the larger. *)
Lemma renew_maxDate (acc : option number) (d : number) :
  goodCheckpoint acc -> goodDate d -> renew acc d = maxDate acc d.
Proof.
  intros Ha Hd. apply goodDate_Num in Hd. destruct Hd as (z & -> & Hz).
  destruct acc as [c|]; [|reflexivity].
  apply goodDate_Num in Ha. destruct Ha as (a & -> & Hpos).
  unfold renew, newer, maxDate. simpl.
  destruct (Z.eqb_spec a 0) as [->|Hne]; simpl.
  - destruct (Z.ltb_spec 0 z); [reflexivity|].
    replace z with 0%Z by lia. reflexivity.
  - reflexivity.
Qed.

Lemma maxDate_good (acc : option number) (d : number) :
  goodCheckpoint acc -> goodDate d -> goodCheckpoint (maxDate acc d).
Proof.
  intros Ha Hd. destruct acc as [c|]; simpl; [|exact Hd].
  destruct (JS.lt c d); simpl; assumption.
Qed.

Lemma fold_renew_highWater (ds : list number) (acc : option number) :
  goodCheckpoint acc -> Forall goodDate ds ->
  fold_left renew ds acc = highWater acc ds.
Proof.
  intros Ha Hds. revert acc Ha. unfold highWater.
  induction Hds as [|d ds Hd _ IH]; intros acc Ha; simpl; [reflexivity|].
  rewrite (renew_maxDate _ _ Ha Hd). apply IH, maxDate_good; assumption.
Qed.

Lemma lt_false_trans (a b c : number) :
  goodDate a -> goodDate b -> goodDate c ->
  JS.lt a b = false -> JS.lt b c = false -> JS.lt a c = false.
Proof.
  intros Ha Hb Hc. apply goodDate_Num in Ha, Hb, Hc.
  destruct Ha as (x & -> & _), Hb as (y & -> & _), Hc as (z & -> & _).
  simpl. rewrite !Z.ltb_ge. lia.
Qed.

Lemma maxDate_cases (acc : option number) (d : number) :
  goodCheckpoint acc -> goodDate d ->
  exists m, maxDate acc d = Some m /\ goodDate m
            /\ (acc = Some m \/ m = d)
            /\ JS.lt m d = false
            /\ (forall c, acc = Some c -> JS.lt m c = false).
Proof.
  intros Ha Hd. destruct acc as [c|]; simpl.
  - pose proof Ha as Ha'. pose proof Hd as Hd'.
    apply goodDate_Num in Ha', Hd'.
    destruct Ha' as (a & -> & _), Hd' as (z & -> & _). simpl in *.
    destruct (Z.ltb_spec a z) as [Hlt|Hge].
    + exists (Num z). repeat split; auto.
      * apply Z.ltb_irrefl.
      * intros c [= <-]. simpl. apply Z.ltb_ge. lia.
    + exists (Num a). repeat split; auto.
      * simpl. apply Z.ltb_ge. lia.
      * intros c [= <-]. apply Z.ltb_irrefl.
  - apply goodDate_Num in Hd as Hd'. destruct Hd' as (z & -> & _).
    exists (Num z). repeat split; auto.
    + apply Z.ltb_irrefl.
    + discriminate.
Qed.

Lemma highWater_good (ds : list number) (acc : option number) :
  goodCheckpoint acc -> Forall goodDate ds -> goodCheckpoint (highWater acc ds).
Proof.
  intros Ha Hds. revert acc Ha. unfold highWater.
  induction Hds as [|d ds Hd _ IH]; intros acc Ha; simpl; [exact Ha|].
  apply IH, maxDate_good; assumption.
Qed.

Lemma highWater_newest (ds : list number) (acc : option number) :
  goodCheckpoint acc -> Forall goodDate ds -> newest acc ds (highWater acc ds).
Proof.
  intros Ha Hds. revert acc Ha.
  induction Hds as [|d ds Hd Hds IH]; intros acc Ha.
  - unfold highWater. simpl. destruct acc as [c|]; simpl; [|tauto].
    apply goodDate_Num in Ha. destruct Ha as (a & -> & _).
    split; [tauto|]. split; [|tauto].
    intros c [= <-]. simpl. apply Z.ltb_irrefl.
  - destruct (maxDate_cases acc d Ha Hd) as (a' & Ea & Ha' & Hfrom & Hd' & Hacc').
    pose proof (IH (Some a') Ha') as Hn.
    pose proof (highWater_good ds (Some a') Ha' Hds) as Hg.
    replace (highWater acc (d :: ds)) with (highWater (Some a') ds)
      by (unfold highWater; simpl; rewrite Ea; reflexivity).
    destruct (highWater (Some a') ds) as [m|]; simpl in *.
    + destruct Hn as (Hin & Hbelow & Hrest).
      specialize (Hbelow a' eq_refl).
      split; [|split].
      * destruct Hin as [[= <-]|Hin]; [|tauto].
        destruct Hfrom as [?|?]; [left | right; left]; congruence.
      * intros c Hc. apply (lt_false_trans m a' c); auto.
        subst acc. exact Ha.
      * intros x [<-|Hx]; [|auto].
        apply (lt_false_trans m a' d); auto.
    + destruct Hn as [Hnone _]. discriminate.
Qed.

(** The newest date depends on the dates as a set only. *)
Lemma newest_unique (acc : option number) (ds ds' : list number)
    (r r' : option number) :
  goodCheckpoint acc -> Forall goodDate ds ->
  (forall d, In d ds <-> In d ds') ->
  newest acc ds r -> newest acc ds' r' -> r = r'.
Proof.
  intros Ha Hds Hsame Hr Hr'.
  assert (Hgood : forall m, acc = Some m \/ In m ds -> goodDate m).
  { intros m [->|Hin]; [exact Ha|].
    rewrite Forall_forall in Hds. apply Hds, Hin. }
  destruct r as [m|], r' as [m'|]; simpl in *.
  - destruct Hr as (Hin & Hacc & Hall), Hr' as (Hin' & Hacc' & Hall').
    assert (Hm : goodDate m) by (apply Hgood, Hin).
    assert (Hm' : goodDate m').
    { apply Hgood. destruct Hin' as [?|?]; [tauto | right; apply Hsame; assumption]. }
    assert (H1 : JS.lt m m' = false).
    { destruct Hin' as [?|?]; [apply Hacc | apply Hall, Hsame]; assumption. }
    assert (H2 : JS.lt m' m = false).
    { destruct Hin as [?|?]; [apply Hacc' | apply Hall', Hsame]; assumption. }
    apply goodDate_Num in Hm, Hm'.
    destruct Hm as (z & -> & _), Hm' as (z' & -> & _). simpl in *.
    apply Z.ltb_ge in H1, H2. do 2 f_equal. lia.
  - destruct Hr as (Hin & _), Hr' as (-> & ->). exfalso.
    destruct Hin as [?|Hin]; [discriminate | apply Hsame in Hin; exact Hin].
  - destruct Hr as (-> & ->), Hr' as (Hin & _). exfalso.
    destruct Hin as [?|Hin]; [discriminate | apply Hsame in Hin; exact Hin].
  - reflexivity.
Qed.

Lemma highWater_same_dates (acc : option number) (ds ds' : list number) :
  goodCheckpoint acc -> Forall goodDate ds ->
  (forall d, In d ds <-> In d ds') ->
  highWater acc ds = highWater acc ds'.
Proof.
  intros Ha Hds Hsame.
  assert (Hds' : Forall goodDate ds').
  { rewrite Forall_forall in *. intros d Hd. apply Hds, Hsame, Hd. }
  apply (newest_unique acc ds ds'); auto using highWater_newest.
Qed.

(** ** The callbacks of [latestItems.map] *)

Section Callbacks.

Variable w : World.
Variable lastProcessedPubDate : option number.

Lemma segments_total (content : jsstring) :
  singleUnitFits w -> exists segs, segments w content = Some segs.
Proof.
  intros Hfit. unfold segments, contentSegments.
  rewrite segmentLoop_trace.
  destruct (segmentTrace_total (parseTweet_weightedLength w) (str "====") 280
              Hfit ltac:(discriminate) ltac:(lia)
              (S (length content)) content) as [tr ->]; [lia|].
  eexists. reflexivity.
Qed.

Lemma callback_total (item : FeedItem) :
  singleUnitFits w -> exists reqs, callback w lastProcessedPubDate item = Some reqs.
Proof.
  intros Hfit. unfold callback.
  destruct (nocrosspost item); [eexists; reflexivity|].
  destruct (newer lastProcessedPubDate (pubDate item)); [|eexists; reflexivity].
  destruct (segments_total (htmlToText w (description item)) Hfit) as [segs ->].
  eexists. reflexivity.
Qed.

Lemma mapCallbacks_total (items : list FeedItem) :
  singleUnitFits w -> exists tasks, mapCallbacks w lastProcessedPubDate items = Some tasks.
Proof.
  intros Hfit. induction items as [|item items [tasks IH]]; simpl.
  - eexists. reflexivity.
  - destruct (callback_total item Hfit) as [reqs ->]. rewrite IH.
    eexists. reflexivity.
Qed.

(** A callback issues requests, all for its own item, exactly when the item
    is one that [dispatches] selects. *)
Lemma callback_requests (item : FeedItem) (reqs : list request) :
  callback w lastProcessedPubDate item = Some reqs ->
  Forall (fun r => req_item r = item) reqs
  /\ (if dispatches w lastProcessedPubDate item then reqs <> [] else reqs = []).
Proof.
  unfold callback, dispatches. intros H.
  destruct (nocrosspost item); simpl.
  - injection H as <-. split; [constructor | reflexivity].
  - destruct (newer lastProcessedPubDate (pubDate item)); simpl.
    + destruct (segments w (htmlToText w (description item))) as [segs|];
        [|discriminate].
      injection H as <-. split; [apply forSegments_item|].
      destruct segs as [|seg segs]; [reflexivity|].
      intros Hnil. apply forSegments_nil in Hnil. discriminate.
    + injection H as <-. split; [constructor | reflexivity].
Qed.

(** The first requests of the callbacks are those of the dispatched items,
    in the order of the array. *)
Lemma mapCallbacks_firsts (items : list FeedItem) (tasks : list (list request)) :
  mapCallbacks w lastProcessedPubDate items = Some tasks ->
  map req_item (flat_map (firstn 1) tasks)
  = filter (dispatches w lastProcessedPubDate) items.
Proof.
  revert tasks. induction items as [|item items IH]; intros tasks H; simpl in H.
  - injection H as <-. reflexivity.
  - destruct (callback w lastProcessedPubDate item) as [reqs|] eqn:Ec; [|discriminate].
    destruct (mapCallbacks w lastProcessedPubDate items) as [tasks'|]; [|discriminate].
    injection H as <-. cbn [flat_map filter].
    rewrite map_app, (IH tasks' eq_refl).
    apply callback_requests in Ec. destruct Ec as [Hitem Hsome].
    destruct (dispatches w lastProcessedPubDate item).
    + destruct reqs as [|r reqs]; [congruence|].
      inversion Hitem; subst. reflexivity.
    + subst reqs. reflexivity.
Qed.

(** The dates that renew the checkpoint are those of the dispatched items. *)
Lemma mapCallbacks_dates (items : list FeedItem) (tasks : list (list request)) :
  mapCallbacks w lastProcessedPubDate items = Some tasks ->
  forall d, In d (map dateOf (concat tasks))
            <-> In d (map pubDate (filter (dispatches w lastProcessedPubDate) items)).
Proof.
  revert tasks. induction items as [|item items IH]; intros tasks H d; simpl in H.
  - injection H as <-. reflexivity.
  - destruct (callback w lastProcessedPubDate item) as [reqs|] eqn:Ec; [|discriminate].
    destruct (mapCallbacks w lastProcessedPubDate items) as [tasks'|]; [|discriminate].
    injection H as <-. cbn [concat filter].
    rewrite map_app, in_app_iff, (IH tasks' eq_refl).
    apply callback_requests in Ec. destruct Ec as [Hitem Hsome].
    assert (Hd : In d (map dateOf reqs) -> d = pubDate item).
    { rewrite in_map_iff. intros (r & <- & Hr).
      rewrite Forall_forall in Hitem. unfold dateOf. rewrite (Hitem r Hr).
      reflexivity. }
    destruct (dispatches w lastProcessedPubDate item); simpl.
    + destruct reqs as [|r reqs]; [congruence|].
      split.
      * intros [Hin|Hin]; [left; symmetry; apply Hd, Hin | right; exact Hin].
      * intros [<-|Hin]; [|right; exact Hin].
        left. left. unfold dateOf. inversion Hitem; subst. reflexivity.
    + subst reqs. simpl. tauto.
Qed.

End Callbacks.

(** ** Properties of the segmenter *)

(** C9. The candidate-shortening loop terminates: from a non-empty
    candidate (the handler starts from the first [limit] code units of a
    non-empty [remainingContent]), removing the last code unit while the
    weighted length exceeds the limit reaches a prefix of the candidate
    within the limit, whenever a single code unit is always within it;
    a fuel of the length of the candidate is enough. *)
Theorem shorten_terminates (weightedLength : jsstring -> nat) (limit : nat)
    (potentialSegment : jsstring) :
  (forall u : ascii, weightedLength [u] <= limit) ->
  potentialSegment <> [] ->
  exists segment,
    (forall fuel, length potentialSegment <= fuel ->
       shorten weightedLength limit fuel potentialSegment = Some segment)
    /\ weightedLength segment <= limit
    /\ segment = firstn (length segment) potentialSegment
    /\ segment <> [].
Proof.
  intros Hfit Hne.
  destruct (shorten_total weightedLength limit Hfit
              (length potentialSegment) potentialSegment Hne (le_n _))
    as (c & Ec & Hc).
  exists c. split; [|split; [|split]].
  - intros fuel Hfuel. apply (shorten_more_fuel _ _ _ _ _ _ Ec Hfuel).
  - apply (shorten_sound _ _ _ _ _ Ec).
  - apply (shorten_sound _ _ _ _ _ Ec).
  - exact Hc.
Qed.

Lemma shorten_terminates_witness :
  exists segment,
    (forall fuel, length (str "abcde") <= fuel ->
       shorten doubleWeight 6 fuel (str "abcde") = Some segment)
    /\ doubleWeight segment <= 6
    /\ segment = firstn (length segment) (str "abcde")
    /\ segment <> [].
Proof.
  apply (shorten_terminates doubleWeight 6 (str "abcde")).
  - intros u. unfold doubleWeight. simpl. lia.
  - discriminate.
Defined.

(** C4. Putting the emitted segments back together, with the separator
    after every segment where the loop consumed one, gives the content
    again, for every content, separator and limit; and the loop does emit
    its segments when the separator is not empty, the limit is positive
    and a single code unit is within the limit. *)
Theorem segments_reconstruct_content (weightedLength : jsstring -> nat)
    (separator : jsstring) (limit : nat) (content : jsstring) :
  (forall fuel tr,
     segmentTrace weightedLength separator limit fuel content = Some tr ->
     segmentLoop weightedLength separator limit fuel content = Some (map fst tr)
     /\ reconstruct separator tr = content)
  /\ ((forall u : ascii, weightedLength [u] <= limit) ->
      separator <> [] -> 0 < limit ->
      exists tr,
        segmentTrace weightedLength separator limit (S (length content)) content
        = Some tr
        /\ contentSegments weightedLength separator limit content
           = Some (map fst tr)
        /\ reconstruct separator tr = content).
Proof.
  split.
  - intros fuel tr H. split.
    + rewrite segmentLoop_trace, H. reflexivity.
    + apply (segmentTrace_reconstruct _ _ _ _ _ _ H).
  - intros Hfit Hsep Hlim.
    destruct (segmentTrace_total weightedLength separator limit Hfit Hsep Hlim
                (S (length content)) content (Nat.lt_succ_diag_r _)) as [tr H].
    exists tr. split; [exact H|]. split.
    + unfold contentSegments. rewrite segmentLoop_trace, H. reflexivity.
    + apply (segmentTrace_reconstruct _ _ _ _ _ _ H).
Qed.

Lemma segments_reconstruct_content_witness :
  exists tr,
    segmentTrace doubleWeight (str "==") 6 (S (length (str "ab==cdefg"))) (str "ab==cdefg")
    = Some tr
    /\ contentSegments doubleWeight (str "==") 6 (str "ab==cdefg") = Some (map fst tr)
    /\ reconstruct (str "==") tr = str "ab==cdefg".
Proof.
  apply (segments_reconstruct_content doubleWeight (str "==") 6 (str "ab==cdefg")).
  - intros u. unfold doubleWeight. simpl. lia.
  - discriminate.
  - lia.
Defined.

(** C5. Every segment that was not cut at a separator found before the
    limit has a weighted length within the limit; a segment cut at such a
    separator can exceed it, as 150 double-width code units before the
    separator do for the limit 280. *)
Theorem segments_within_limit :
  (forall weightedLength separator limit content,
     (forall fuel tr,
        segmentTrace weightedLength separator limit fuel content = Some tr ->
        Forall (fun e => snd e <> AtSeparator -> weightedLength (fst e) <= limit) tr)
     /\ ((forall u : ascii, weightedLength [u] <= limit) ->
         separator <> [] -> 0 < limit ->
         exists tr,
           segmentTrace weightedLength separator limit (S (length content)) content
           = Some tr
           /\ contentSegments weightedLength separator limit content
              = Some (map fst tr)
           /\ Forall (fun e => snd e <> AtSeparator ->
                               weightedLength (fst e) <= limit) tr))
  /\ segmentTrace doubleWeight (str "====") 280 2
       (repeat "a"%char 150 ++ str "====")
     = Some [(repeat "a"%char 150, AtSeparator)]
  /\ 280 < doubleWeight (repeat "a"%char 150).
Proof.
  split; [|split].
  - intros weightedLength separator limit content. split.
    + intros fuel tr H. apply (segmentTrace_bound _ _ _ _ _ _ H).
    + intros Hfit Hsep Hlim.
      destruct (segmentTrace_total weightedLength separator limit Hfit Hsep Hlim
                  (S (length content)) content (Nat.lt_succ_diag_r _)) as [tr H].
      exists tr. split; [exact H|]. split.
      * unfold contentSegments. rewrite segmentLoop_trace, H. reflexivity.
      * apply (segmentTrace_bound _ _ _ _ _ _ H).
  - vm_compute. reflexivity.
  - vm_compute. lia.
Qed.

Lemma segments_within_limit_witness :
  exists tr,
    segmentTrace doubleWeight (str "==") 6 (S (length (str "ab==cdefg"))) (str "ab==cdefg")
    = Some tr
    /\ contentSegments doubleWeight (str "==") 6 (str "ab==cdefg") = Some (map fst tr)
    /\ Forall (fun e => snd e <> AtSeparator -> doubleWeight (fst e) <= 6) tr.
Proof.
  apply (proj1 segments_within_limit doubleWeight (str "==") 6 (str "ab==cdefg")).
  - intros u. unfold doubleWeight. simpl. lia.
  - discriminate.
  - lia.
Defined.

Lemma segmentLoop_unfold (weightedLength : jsstring -> nat) (separator : jsstring)
    (limit fuel : nat) (r : jsstring) :
  segmentLoop weightedLength separator limit (S fuel) r =
  if 0 <? length r
  then match iteration weightedLength separator limit r with
       | None => None
       | Some (segment, _, r') =>
           option_map (cons segment)
             (segmentLoop weightedLength separator limit fuel r')
       end
  else Some [].
Proof. reflexivity. Qed.

(** A content without the separator that fits the limit as it is makes one
    segment. *)
Lemma iteration_whole (weightedLength : jsstring -> nat) (separator : jsstring)
    (limit : nat) (r : jsstring) :
  indexOf r separator = None -> length r <= limit -> weightedLength r <= limit ->
  iteration weightedLength separator limit r = Some (r, AtLength false, []).
Proof.
  intros Hi Hl Hw. unfold iteration. rewrite Hi, substring_prefix.
  rewrite (firstn_all2 _ Hl). cbn [shorten].
  apply Nat.ltb_ge in Hw. rewrite Hw. unfold substring_from.
  rewrite skipn_all. reflexivity.
Qed.

(** C7. When the separator first occurs before the limit, the text before
    it is the segment of that iteration, whatever its weighted length, and
    the loop goes on after the separator; no segment holds a separator; so
    "AAA====BBB" gives "AAA" and "BBB" (the weight of "BBB" being within
    280, as it is for twitter-text). *)
Theorem separator_cut :
  (forall weightedLength separator limit remainingContent separatorIndex fuel,
     indexOf remainingContent separator = Some separatorIndex ->
     separatorIndex < limit ->
     remainingContent <> [] ->
     remainingContent
     = firstn separatorIndex remainingContent ++ separator
       ++ skipn (separatorIndex + length separator) remainingContent
     /\ segmentLoop weightedLength separator limit (S fuel) remainingContent
        = option_map (cons (firstn separatorIndex remainingContent))
            (segmentLoop weightedLength separator limit fuel
               (skipn (separatorIndex + length separator) remainingContent)))
  /\ (forall weightedLength separator limit fuel content segs,
        separator <> [] ->
        segmentLoop weightedLength separator limit fuel content = Some segs ->
        Forall (fun segment => indexOf segment separator = None) segs)
  /\ (forall weightedLength,
        weightedLength (str "BBB") <= 280 ->
        contentSegments weightedLength (str "====") 280 (str "AAA====BBB")
        = Some [str "AAA"; str "BBB"]).
Proof.
  assert (Hgen : forall weightedLength separator limit r i fuel,
             indexOf r separator = Some i -> i < limit -> r <> [] ->
             r = firstn i r ++ separator ++ skipn (i + length separator) r
             /\ segmentLoop weightedLength separator limit (S fuel) r
                = option_map (cons (firstn i r))
                    (segmentLoop weightedLength separator limit fuel
                       (skipn (i + length separator) r))).
  { intros weightedLength separator limit r i fuel Hi Hlt Hr.
    split; [apply indexOf_split, Hi|].
    rewrite segmentLoop_unfold.
    rewrite (iteration_at_separator weightedLength separator limit r i Hi Hlt).
    destruct r; [congruence | reflexivity]. }
  split; [exact Hgen|]. split.
  { intros weightedLength separator limit fuel content segs Hsep H.
    apply (segmentLoop_clean _ _ _ _ _ _ Hsep H). }
  intros weightedLength Hw. unfold contentSegments.
  change (S (length (str "AAA====BBB"))) with (S (S 9)).
  destruct (Hgen weightedLength (str "====") 280 (str "AAA====BBB") 3 (S 9))
    as [_ ->]; [reflexivity | lia | discriminate |].
  change (skipn (3 + length (str "====")) (str "AAA====BBB")) with (str "BBB").
  change (firstn 3 (str "AAA====BBB")) with (str "AAA").
  rewrite segmentLoop_unfold.
  rewrite (iteration_whole weightedLength (str "====") 280 (str "BBB"));
    [reflexivity | reflexivity | simpl; lia | exact Hw].
Qed.

Lemma separator_cut_witness :
  (str "AAA====BBB"
   = firstn 3 (str "AAA====BBB") ++ str "===="
     ++ skipn (3 + length (str "====")) (str "AAA====BBB")
   /\ segmentLoop doubleWeight (str "====") 280 (S 9) (str "AAA====BBB")
      = option_map (cons (firstn 3 (str "AAA====BBB")))
          (segmentLoop doubleWeight (str "====") 280 9
             (skipn (3 + length (str "====")) (str "AAA====BBB"))))
  /\ Forall (fun segment => indexOf segment (str "====") = None)
       [str "AAA"; str "BBB"]
  /\ contentSegments doubleWeight (str "====") 280 (str "AAA====BBB")
     = Some [str "AAA"; str "BBB"].
Proof.
  split; [|split].
  - apply (proj1 separator_cut doubleWeight (str "====") 280 (str "AAA====BBB") 3 9).
    + reflexivity.
    + lia.
    + discriminate.
  - apply (proj1 (proj2 separator_cut) doubleWeight (str "====") 280 11
             (str "AAA====BBB")).
    + discriminate.
    + vm_compute. reflexivity.
  - apply (proj2 (proj2 separator_cut) doubleWeight). vm_compute. lia.
Defined.

(** ** Runs of the handler *)

Lemma firstn_incl {A : Type} (n : nat) (l : list A) (x : A) :
  In x (firstn n l) -> In x l.
Proof.
  intros H. rewrite <- (firstn_skipn n l). apply in_or_app. left. exact H.
Qed.

Lemma slice0_incl {A : Type} (l : list A) (e : number) (x : A) :
  In x (slice0 l e) -> In x l.
Proof.
  destruct e as [|z]; simpl; [tauto|].
  destruct (z <? 0)%Z; apply firstn_incl.
Qed.

Lemma latestItems_incl (w : World) (items : list FeedItem) (item : FeedItem) :
  In item (latestItems w items) -> In item items.
Proof.
  unfold latestItems. rewrite <- in_rev. apply slice0_incl.
Qed.

(** Once the feed and the checkpoint are read and the feed is parsed, the
    run posts what the callbacks issue and commits. *)
Lemma handler_run (w : World) (data : jsstring) (last : option number)
    (items : list FeedItem) :
  axios_get w = Some data -> ddb_get w = Some last ->
  parseString w data = Some items -> singleUnitFits w ->
  exists tasks,
    mapCallbacks w last (latestItems w items) = Some tasks
    /\ handler w
       = Some (commit w (interleave w tasks)
                 (newProcessedPubDate last (interleave w tasks))).
Proof.
  intros Hget Hddb Hparse Hfit.
  destruct (mapCallbacks_total w last (latestItems w items) Hfit) as [tasks Ht].
  exists tasks. split; [exact Ht|].
  unfold handler. rewrite Hget, Hddb, Hparse, Ht. reflexivity.
Qed.

(** The renewed checkpoint is the newest of the stored one and the dates of
    the dispatched items, whatever the order of the requests. *)
Lemma checkpoint_highWater (w : World) (last : option number)
    (items : list FeedItem) (tasks : list (list request)) (issued : list request) :
  mapCallbacks w last items = Some tasks ->
  Permutation issued (concat tasks) ->
  goodCheckpoint last ->
  Forall (fun item => goodDate (pubDate item)) items ->
  newProcessedPubDate last issued
  = highWater last (map pubDate (filter (dispatches w last) items)).
Proof.
  intros Ht Hperm Hlast Hitems.
  assert (Hsame : forall d, In d (map dateOf issued)
                            <-> In d (map pubDate (filter (dispatches w last) items))).
  { intros d. rewrite <- (mapCallbacks_dates w last items tasks Ht d).
    split; apply Permutation_in, Permutation_map;
      [exact Hperm | symmetry; exact Hperm]. }
  assert (Hgood : Forall goodDate (map dateOf issued)).
  { rewrite Forall_forall. intros d Hd. apply Hsame in Hd.
    rewrite in_map_iff in Hd. destruct Hd as (item & <- & Hin).
    apply filter_In in Hin. destruct Hin as [Hin _].
    rewrite Forall_forall in Hitems. apply Hitems, Hin. }
  unfold newProcessedPubDate. fold dateOf.
  rewrite (fold_renew_highWater _ _ Hlast Hgood).
  apply highWater_same_dates; assumption.
Qed.

(** A content that is not empty has a first segment. *)
Lemma segments_first (w : World) (content : jsstring) :
  singleUnitFits w -> content <> [] ->
  exists seg segs, segments w content = Some (seg :: segs).
Proof.
  intros Hfit Hne. unfold segments, contentSegments.
  rewrite segmentLoop_trace.
  destruct (segmentTrace_total (parseTweet_weightedLength w) (str "====") 280
              Hfit ltac:(discriminate) ltac:(lia)
              (S (length content)) content) as [tr Htr]; [lia|].
  rewrite Htr. destruct tr as [|[seg how] tr].
  - apply segmentTrace_reconstruct in Htr. unfold reconstruct in Htr.
    simpl in Htr. congruence.
  - simpl. eauto.
Qed.

(** When is an item newer than a checkpoint that is a date other than 0. *)
Lemma newer_after_checkpoint (c : Z) (d : number) :
  c <> 0%Z ->
  (newer (Some (Num c)) d = true <-> exists z, d = Num z /\ (c < z)%Z).
Proof.
  intros Hc. unfold newer. simpl.
  destruct (Z.eqb_spec c 0) as [?|_]; [contradiction|]. simpl.
  destruct d as [|z]; simpl.
  - split; [discriminate | intros (z & [=] & _)].
  - rewrite Z.ltb_lt. split; [eauto | intros (z' & [= <-] & H); exact H].
Qed.

Lemma newer_without_checkpoint (d : number) : newer None d = true.
Proof. reflexivity. Qed.

Lemma posted_commit (w : World) (issued : list request) (new : option number) :
  posted (commit w issued new) = issued.
Proof. destruct new; reflexivity. Qed.

Lemma stored_commit (w : World) (issued : list request) (new : option number) :
  stored (commit w issued new) = match new with Some v => [v] | None => [] end.
Proof. destruct new; reflexivity. Qed.

Lemma returned_commit (w : World) (issued : list request) (new : option number) :
  returned (commit w issued new) = Fulfilled.
Proof. destruct new; reflexivity. Qed.

Lemma logged_commit (w : World) (issued : list request) (new : option number) :
  LOG_LEVEL_debug w = false -> logged (commit w issued new) = [].
Proof.
  intros Hd. destruct new as [v|]; simpl; unfold debugLog; rewrite Hd;
    [destruct (ddb_put w v)|]; reflexivity.
Qed.

(** Every request comes from an item that [dispatches] selects. *)
Lemma mapCallbacks_requests (w : World) (last : option number)
    (items : list FeedItem) (tasks : list (list request)) (r : request) :
  mapCallbacks w last items = Some tasks ->
  In r (concat tasks) ->
  In (req_item r) (filter (dispatches w last) items).
Proof.
  revert tasks. induction items as [|item items IH]; intros tasks H Hr; simpl in H.
  - injection H as <-. destruct Hr.
  - destruct (callback w last item) as [reqs|] eqn:Ec; [|discriminate].
    destruct (mapCallbacks w last items) as [tasks'|]; [|discriminate].
    injection H as <-. cbn [concat filter] in *.
    apply in_app_or in Hr.
    apply callback_requests in Ec. destruct Ec as [Hitem Hsome].
    destruct Hr as [Hr|Hr].
    + rewrite Forall_forall in Hitem. rewrite (Hitem r Hr).
      destruct (dispatches w last item); [left; reflexivity|].
      subst reqs. destruct Hr.
    + specialize (IH tasks' eq_refl Hr).
      destruct (dispatches w last item); [right|]; exact IH.
Qed.

(** ** Properties of the checkpoint and of the selection *)

(** C1, as stated, fails on the tagged post of 150 with the checkpoint 100:
    the post is not dispatched and the value committed is 100, where the
    newest date of the considered items is 150. *)
Lemma tagged_item_keeps_checkpoint :
  option_map posted (handler taggedRun) = Some []
  /\ option_map stored (handler taggedRun) = Some [Num 100]
  /\ highWater (Some (Num 100)) (map pubDate (latestItems taggedRun taggedFeed))
     = Some (Num 150)
  /\ option_map stored (handler taggedRun) <> Some [Num 150].
Proof.
  repeat split; try (vm_compute; reflexivity).
  vm_compute. discriminate.
Qed.

(** C1, amended. For dates not before 1970, the checkpoint a run commits is
    the newest of the stored checkpoint and the dates of the items it
    dispatches, which are the considered items that are not tagged, are
    newer than the stored checkpoint and have at least one segment; a
    tagged item is not dispatched and does not renew the checkpoint. *)
Theorem checkpoint_of_run (w : World) (data : jsstring) (last : option number)
    (items : list FeedItem) :
  axios_get w = Some data -> ddb_get w = Some last ->
  parseString w data = Some items ->
  fairWorld w -> singleUnitFits w ->
  goodCheckpoint last ->
  Forall (fun item => goodDate (pubDate item)) items ->
  exists o,
    handler w = Some o
    /\ newProcessedPubDate last (posted o)
       = highWater last
           (map pubDate (filter (dispatches w last) (latestItems w items)))
    /\ stored o
       = match highWater last
                 (map pubDate (filter (dispatches w last) (latestItems w items)))
         with
         | Some v => [v]
         | None => []
         end
    /\ (forall r, In r (posted o) -> nocrosspost (req_item r) = false).
Proof.
  intros Hget Hddb Hparse Hfair Hfit Hlast Hitems.
  destruct (handler_run w data last items Hget Hddb Hparse Hfit)
    as (tasks & Ht & Hrun).
  pose proof (eventLoopOrder_Permutation _ _ (Hfair tasks)) as Hperm.
  assert (Hlatest : Forall (fun item => goodDate (pubDate item)) (latestItems w items)).
  { rewrite Forall_forall in *. intros item Hin.
    apply Hitems, (latestItems_incl w), Hin. }
  pose proof (checkpoint_highWater w last _ tasks _ Ht Hperm Hlast Hlatest) as Hnew.
  eexists. split; [exact Hrun|].
  rewrite posted_commit, stored_commit, Hnew.
  split; [reflexivity|]. split; [reflexivity|].
  intros r Hr. apply (Permutation_in _ Hperm) in Hr.
  apply (mapCallbacks_requests w last _ tasks r Ht) in Hr.
  apply filter_In in Hr. destruct Hr as [_ Hd].
  unfold dispatches in Hd. destruct (nocrosspost (req_item r)); [discriminate|].
  reflexivity.
Qed.

Lemma checkpoint_of_run_witness :
  exists o,
    handler taggedRun = Some o
    /\ newProcessedPubDate (Some (Num 100)) (posted o)
       = highWater (Some (Num 100))
           (map pubDate (filter (dispatches taggedRun (Some (Num 100)))
                           (latestItems taggedRun taggedFeed)))
    /\ stored o
       = match highWater (Some (Num 100))
                 (map pubDate (filter (dispatches taggedRun (Some (Num 100)))
                                 (latestItems taggedRun taggedFeed)))
         with
         | Some v => [v]
         | None => []
         end
    /\ (forall r, In r (posted o) -> nocrosspost (req_item r) = false).
Proof.
  apply (checkpoint_of_run taggedRun (str "<rss/>") (Some (Num 100)) taggedFeed).
  - reflexivity.
  - reflexivity.
  - reflexivity.
  - apply quietWorld_fair.
  - intros u. simpl. lia.
  - simpl. lia.
  - repeat constructor. simpl. lia.
Defined.

(** C2. The code departs from the claim when the stored checkpoint is 0,
    the value a first run commits for a post dated at the epoch:
    [!lastProcessedPubDate] holds for 0 as it does for [null], so a post
    dated at the checkpoint, or before it, counts as new and is dispatched
    again. *)
Theorem epoch_checkpoint_dispatches_again :
  option_map stored (handler (quietWorld None [post 0 "hi" None None]))
  = Some [Num 0]
  /\ ddb_get epochRun = Some (Some (Num 0))
  /\ newer (Some (Num 0)) (Num 0) = true
  /\ newer (Some (Num 0)) (Num (-5)) = true
  /\ option_map (fun o => map (fun r => (pubDate (req_item r), value1 (req_body r)))
                            (posted o))
       (handler epochRun)
     = Some [(Num 0, str "hi")].
Proof. repeat split; vm_compute; reflexivity. Qed.

(** With a stored checkpoint other than 0 every request is for an item
    dated after it. *)
Lemma nonzero_checkpoint_selects_newer (w : World) (data : jsstring) (c : Z)
    (o : Outcome) :
  axios_get w = Some data -> ddb_get w = Some (Some (Num c)) -> c <> 0%Z ->
  fairWorld w -> handler w = Some o ->
  forall r, In r (posted o) ->
            exists z, pubDate (req_item r) = Num z /\ (c < z)%Z.
Proof.
  intros Hget Hddb Hc Hfair Hrun r Hr.
  unfold handler in Hrun. rewrite Hget, Hddb in Hrun.
  destruct (parseString w data) as [items|].
  - destruct (mapCallbacks w (Some (Num c)) (latestItems w items))
      as [tasks|] eqn:Ht; [|discriminate].
    injection Hrun as <-. rewrite posted_commit in Hr.
    apply (Permutation_in _ (eventLoopOrder_Permutation _ _ (Hfair tasks))) in Hr.
    apply (mapCallbacks_requests w _ _ tasks r Ht) in Hr.
    apply filter_In in Hr. destruct Hr as [_ Hd].
    unfold dispatches in Hd.
    apply andb_prop in Hd. destruct Hd as [Hd _].
    apply andb_prop in Hd. destruct Hd as [_ Hd].
    apply (newer_after_checkpoint c _ Hc), Hd.
  - injection Hrun as <-. destruct Hr.
Qed.

(** ** Properties of the entry point *)

(** C3, as stated, fails when the feed cannot be fetched: the promise of
    the handler is rejected. *)
Lemma fetch_failure_escapes :
  axios_get (unreachableFeed twoPostsRun) = None
  /\ option_map returned (handler (unreachableFeed twoPostsRun)) = Some Rejected
  /\ option_map logged (handler (unreachableFeed twoPostsRun)) = Some [].
Proof. repeat split; vm_compute; reflexivity. Qed.

(** C3, amended. A failing fetch of the feed or read of the checkpoint is
    outside the [try] block: the promise of the handler is rejected, with
    nothing posted, nothing stored and nothing logged.  Once both have
    answered, the run always settles normally: an error of the parser is
    caught and logged, with nothing posted or stored, and the errors of
    the webhook and of the checkpoint write are contained (and logged in
    debug mode at most). *)
Theorem handler_settles (w : World) :
  (axios_get w = None \/ ddb_get w = None ->
   handler w
   = Some {| returned := Rejected; posted := []; stored := []; logged := [] |})
  /\ (forall data last,
        axios_get w = Some data -> ddb_get w = Some last ->
        singleUnitFits w ->
        exists o,
          handler w = Some o
          /\ returned o = Fulfilled
          /\ (parseString w data = None ->
              posted o = [] /\ stored o = [] /\ logged o = [AnErrorOccurred])
          /\ (parseString w data <> None -> LOG_LEVEL_debug w = false ->
              logged o = [])).
Proof.
  split.
  - intros [Hget|Hddb]; unfold handler.
    + rewrite Hget. reflexivity.
    + rewrite Hddb. destruct (axios_get w); reflexivity.
  - intros data last Hget Hddb Hfit.
    destruct (parseString w data) as [items|] eqn:Hparse.
    + destruct (handler_run w data last items Hget Hddb Hparse Hfit)
        as (tasks & _ & Hrun).
      eexists. split; [exact Hrun|].
      split; [apply returned_commit|].
      split; [discriminate|].
      intros _ Hdebug. apply logged_commit, Hdebug.
    + eexists. split.
      * unfold handler. rewrite Hget, Hddb, Hparse. reflexivity.
      * simpl. repeat split; congruence.
Qed.

Lemma handler_settles_witness :
  handler (unreachableFeed twoPostsRun)
  = Some {| returned := Rejected; posted := []; stored := []; logged := [] |}
  /\ exists o,
       handler twoPostsRun = Some o
       /\ returned o = Fulfilled
       /\ (parseString twoPostsRun (str "<rss/>") = None ->
           posted o = [] /\ stored o = [] /\ logged o = [AnErrorOccurred])
       /\ (parseString twoPostsRun (str "<rss/>") <> None ->
           LOG_LEVEL_debug twoPostsRun = false ->
           logged o = []).
Proof.
  split.
  - apply (proj1 (handler_settles (unreachableFeed twoPostsRun))).
    left. reflexivity.
  - apply (proj2 (handler_settles twoPostsRun) (str "<rss/>") None).
    + reflexivity.
    + reflexivity.
    + intros u. simpl. lia.
Defined.

(** ** Properties of the dispatch *)

(** C6. The first requests of a run are those of the dispatched items in
    the reverse of the feed order, the oldest first; with no checkpoint and
    the feed [{pub=100}, {pub=50}], both posts untagged and with text, the
    post of 50 is dispatched before the post of 100 and the checkpoint
    committed is 100. *)
Theorem dispatch_oldest_first :
  (forall w data last items,
     axios_get w = Some data -> ddb_get w = Some last ->
     parseString w data = Some items ->
     fairWorld w -> singleUnitFits w ->
     exists o firsts later,
       handler w = Some o
       /\ posted o = firsts ++ later
       /\ map req_item firsts
          = filter (dispatches w last) (rev (slice0 items (MAX_ITEMS w))))
  /\ (forall w data recent older (m : Z),
        axios_get w = Some data -> ddb_get w = Some None ->
        parseString w data = Some [recent; older] ->
        MAX_ITEMS w = Num m -> (2 <= m)%Z ->
        fairWorld w -> singleUnitFits w ->
        pubDate recent = Num 100 -> pubDate older = Num 50 ->
        nocrosspost recent = false -> nocrosspost older = false ->
        htmlToText w (description recent) <> [] ->
        htmlToText w (description older) <> [] ->
        exists o first second later,
          handler w = Some o
          /\ posted o = first :: second :: later
          /\ req_item first = older /\ req_item second = recent
          /\ stored o = [Num 100]).
Proof.
  assert (Hgen : forall w data last items,
             axios_get w = Some data -> ddb_get w = Some last ->
             parseString w data = Some items ->
             fairWorld w -> singleUnitFits w ->
             exists tasks later,
               mapCallbacks w last (latestItems w items) = Some tasks
               /\ Permutation (interleave w tasks) (concat tasks)
               /\ handler w
                  = Some (commit w (interleave w tasks)
                            (newProcessedPubDate last (interleave w tasks)))
               /\ interleave w tasks = flat_map (firstn 1) tasks ++ later
               /\ map req_item (flat_map (firstn 1) tasks)
                  = filter (dispatches w last) (latestItems w items)).
  { intros w data last items Hget Hddb Hparse Hfair Hfit.
    destruct (handler_run w data last items Hget Hddb Hparse Hfit)
      as (tasks & Ht & Hrun).
    pose proof (eventLoopOrder_Permutation _ _ (Hfair tasks)) as Hperm.
    destruct (Hfair tasks) as (later & Hissued & _).
    exists tasks, later. repeat split; try assumption.
    apply (mapCallbacks_firsts w last _ tasks Ht). }
  split.
  - intros w data last items Hget Hddb Hparse Hfair Hfit.
    destruct (Hgen w data last items Hget Hddb Hparse Hfair Hfit)
      as (tasks & later & _ & _ & Hrun & Hissued & Hfirsts).
    exists (commit w (interleave w tasks)
              (newProcessedPubDate last (interleave w tasks))),
           (flat_map (firstn 1) tasks), later.
    split; [exact Hrun|]. rewrite posted_commit. split; assumption.
  - intros w data recent older m Hget Hddb Hparse Hmax Hm Hfair Hfit
           Hrecent Holder Htag Htag' Htext Htext'.
    destruct (Hgen w data None [recent; older] Hget Hddb Hparse Hfair Hfit)
      as (tasks & later & Ht & Hperm & Hrun & Hissued & Hfirsts).
    assert (Hlatest : latestItems w [recent; older] = [older; recent]).
    { unfold latestItems. rewrite Hmax. simpl.
      destruct (Z.ltb_spec m 0); [lia|].
      destruct (Z.to_nat m) as [|[|k]] eqn:Ek; [lia | lia |].
      simpl. rewrite firstn_nil. reflexivity. }
    assert (Hsel : filter (dispatches w None) [older; recent] = [older; recent]).
    { destruct (segments_first w _ Hfit Htext) as (s1 & l1 & E1).
      destruct (segments_first w _ Hfit Htext') as (s2 & l2 & E2).
      simpl. unfold dispatches. rewrite Htag, Htag', E1, E2. reflexivity. }
    rewrite Hlatest in *. rewrite Hsel in Hfirsts.
    assert (Hnew : newProcessedPubDate None (interleave w tasks) = Some (Num 100)).
    { rewrite (checkpoint_highWater w None [older; recent] tasks _ Ht Hperm).
      - rewrite Hsel. simpl. rewrite Holder, Hrecent. reflexivity.
      - exact I.
      - repeat constructor; [rewrite Holder | rewrite Hrecent]; simpl; lia. }
    destruct (flat_map (firstn 1) tasks) as [|r1 [|r2 [|r3 rs]]];
      try discriminate.
    injection Hfirsts as H1 H2.
    exists (commit w (interleave w tasks)
              (newProcessedPubDate None (interleave w tasks))), r1, r2, later.
    split; [exact Hrun|]. rewrite posted_commit, stored_commit, Hnew.
    repeat split; assumption.
Qed.

Lemma dispatch_oldest_first_witness :
  (exists o firsts later,
     handler twoPostsRun = Some o
     /\ posted o = firsts ++ later
     /\ map req_item firsts
        = filter (dispatches twoPostsRun None)
            (rev (slice0 [recentPost; olderPost] (MAX_ITEMS twoPostsRun))))
  /\ (exists o first second later,
        handler twoPostsRun = Some o
        /\ posted o = first :: second :: later
        /\ req_item first = olderPost /\ req_item second = recentPost
        /\ stored o = [Num 100]).
Proof.
  split.
  - apply (proj1 dispatch_oldest_first twoPostsRun (str "<rss/>") None
             [recentPost; olderPost]).
    + reflexivity.
    + reflexivity.
    + reflexivity.
    + apply quietWorld_fair.
    + intros u. simpl. lia.
  - apply (proj2 dispatch_oldest_first twoPostsRun (str "<rss/>")
             recentPost olderPost 20%Z).
    + reflexivity.
    + reflexivity.
    + reflexivity.
    + reflexivity.
    + lia.
    + apply quietWorld_fair.
    + intros u. simpl. lia.
    + reflexivity.
    + reflexivity.
    + reflexivity.
    + reflexivity.
    + discriminate.
    + discriminate.
Defined.




(** C10. When [remainingContent] begins with the separator, the segment of
    that iteration is the empty string; when no request rejects, the
    dispatcher posts one request for every segment, with the segment as
    its text, so an empty segment is posted as an empty text: the post
    "====A" is sent as "" and "A", and "A========B" has an empty segment
    between "A" and "B". *)
Theorem empty_segments_are_posted :
  (forall weightedLength separator limit rest fuel,
     separator <> [] -> 0 < limit ->
     segmentLoop weightedLength separator limit (S fuel) (separator ++ rest)
     = option_map (cons [])
         (segmentLoop weightedLength separator limit fuel rest))
  /\ (forall w item first segs,
        (forall e b, axios_post w e b = true) ->
        map (fun r => value1 (req_body r)) (forSegments w item first segs) = segs)
  /\ option_map (fun o => map (fun r => value1 (req_body r)) (posted o))
       (handler leadingSeparatorRun)
     = Some [[]; str "A"]
  /\ contentSegments (@length ascii) (str "====") 280 (str "A========B")
     = Some [str "A"; []; str "B"].
Proof.
  split; [|split; [|split]].
  - intros weightedLength separator limit rest fuel Hsep Hlim.
    rewrite segmentLoop_unfold.
    rewrite (iteration_at_separator weightedLength separator limit
               (separator ++ rest) 0 (indexOf_here separator rest) Hlim).
    simpl firstn. rewrite Nat.add_0_l, skipn_app, skipn_all, Nat.sub_diag.
    simpl. destruct separator; [congruence | reflexivity].
  - intros w item first segs Hok. apply forSegments_all_posted, Hok.
  - vm_compute. reflexivity.
  - vm_compute. reflexivity.
Qed.

Lemma empty_segments_are_posted_witness :
  segmentLoop doubleWeight (str "====") 280 (S 3) (str "====" ++ str "A")
  = option_map (cons []) (segmentLoop doubleWeight (str "====") 280 3 (str "A"))
  /\ map (fun r => value1 (req_body r))
       (forSegments leadingSeparatorRun leadingSeparator true [[]; str "A"])
     = [[]; str "A"].
Proof.
  split.
  - apply (proj1 empty_segments_are_posted doubleWeight (str "====") 280 (str "A") 3).
    + discriminate.
    + lia.
  - apply (proj1 (proj2 empty_segments_are_posted) leadingSeparatorRun
             leadingSeparator true [[]; str "A"]).
    intros e b. reflexivity.
Defined.

(** ** Further properties of the segmenter *)

Lemma segmentLoop_inv (weightedLength : jsstring -> nat) (separator : jsstring)
    (limit fuel : nat) (r : jsstring) (segs : list jsstring) :
  segmentLoop weightedLength separator limit fuel r = Some segs ->
  exists tr, segmentTrace weightedLength separator limit fuel r = Some tr
             /\ segs = map fst tr.
Proof.
  rewrite segmentLoop_trace.
  destruct (segmentTrace weightedLength separator limit fuel r) as [tr|];
    [|discriminate].
  intros [= <-]. exists tr. split; reflexivity.
Qed.

Lemma contentSegments_total (weightedLength : jsstring -> nat)
    (separator : jsstring) (limit : nat) (content : jsstring) :
  (forall u : ascii, weightedLength [u] <= limit) ->
  separator <> [] -> 0 < limit ->
  exists tr,
    segmentTrace weightedLength separator limit (S (length content)) content
    = Some tr
    /\ contentSegments weightedLength separator limit content = Some (map fst tr).
Proof.
  intros Hfit Hsep Hlim.
  destruct (segmentTrace_total weightedLength separator limit Hfit Hsep Hlim
              (S (length content)) content (Nat.lt_succ_diag_r _)) as [tr H].
  exists tr. split; [exact H|].
  unfold contentSegments. rewrite segmentLoop_trace, H. reflexivity.
Qed.

(** X1. No segment is longer than the limit in code units, whichever branch
    cut it: a separator is looked for before the limit only, and a
    candidate is the first [limit] code units at most. *)
Theorem segments_have_at_most_limit_units (weightedLength : jsstring -> nat)
    (separator : jsstring) (limit : nat) (content : jsstring) :
  (forall fuel segs,
     segmentLoop weightedLength separator limit fuel content = Some segs ->
     Forall (fun segment => length segment <= limit) segs)
  /\ ((forall u : ascii, weightedLength [u] <= limit) ->
      separator <> [] -> 0 < limit ->
      exists segs,
        contentSegments weightedLength separator limit content = Some segs
        /\ Forall (fun segment => length segment <= limit) segs).
Proof.
  assert (Hall : forall fuel segs,
             segmentLoop weightedLength separator limit fuel content = Some segs ->
             Forall (fun segment => length segment <= limit) segs).
  { intros fuel segs H. apply segmentLoop_inv in H. destruct H as (tr & Ht & ->).
    apply segmentTrace_lengths in Ht. rewrite Forall_map. exact Ht. }
  split; [exact Hall|].
  intros Hfit Hsep Hlim.
  destruct (contentSegments_total weightedLength separator limit content
              Hfit Hsep Hlim) as (tr & _ & Hc).
  exists (map fst tr). split; [exact Hc|]. apply (Hall _ _ Hc).
Qed.

Lemma segments_have_at_most_limit_units_witness :
  exists segs,
    contentSegments doubleWeight (str "==") 6 (str "ab==cdefg") = Some segs
    /\ Forall (fun segment => length segment <= 6) segs.
Proof.
  apply (segments_have_at_most_limit_units doubleWeight (str "==") 6
           (str "ab==cdefg")).
  - intros u. unfold doubleWeight. simpl. lia.
  - discriminate.
  - lia.
Defined.

(** X2. When a single code unit is within the limit, a segment cut by
    length is never empty: an empty segment can only be the text before a
    separator. *)
Theorem length_cut_segments_not_empty (weightedLength : jsstring -> nat)
    (separator : jsstring) (limit : nat) (content : jsstring) :
  (forall u : ascii, weightedLength [u] <= limit) ->
  separator <> [] -> 0 < limit ->
  exists tr,
    segmentTrace weightedLength separator limit (S (length content)) content
    = Some tr
    /\ contentSegments weightedLength separator limit content = Some (map fst tr)
    /\ Forall (fun e => snd e <> AtSeparator -> fst e <> []) tr.
Proof.
  intros Hfit Hsep Hlim.
  destruct (contentSegments_total weightedLength separator limit content
              Hfit Hsep Hlim) as (tr & Ht & Hc).
  exists tr. split; [exact Ht|]. split; [exact Hc|].
  apply (segmentTrace_not_empty weightedLength separator limit Hfit Hlim
           _ _ _ Ht).
Qed.

Lemma length_cut_segments_not_empty_witness :
  exists tr,
    segmentTrace doubleWeight (str "==") 6 (S (length (str "==ab==cdefg")))
      (str "==ab==cdefg")
    = Some tr
    /\ contentSegments doubleWeight (str "==") 6 (str "==ab==cdefg")
       = Some (map fst tr)
    /\ Forall (fun e => snd e <> AtSeparator -> fst e <> []) tr.
Proof.
  apply (length_cut_segments_not_empty doubleWeight (str "==") 6
           (str "==ab==cdefg")).
  - intros u. unfold doubleWeight. simpl. lia.
  - discriminate.
  - lia.
Defined.

(** X3. A content is cut into no more segments than it has code units:
    every iteration of a run that ends takes at least one off. *)
Theorem segment_count_bounded (weightedLength : jsstring -> nat)
    (separator : jsstring) (limit : nat) (content : jsstring) :
  (forall fuel segs,
     segmentLoop weightedLength separator limit fuel content = Some segs ->
     length segs <= length content)
  /\ ((forall u : ascii, weightedLength [u] <= limit) ->
      separator <> [] -> 0 < limit ->
      exists segs,
        contentSegments weightedLength separator limit content = Some segs
        /\ length segs <= length content).
Proof.
  assert (Hall : forall fuel segs,
             segmentLoop weightedLength separator limit fuel content = Some segs ->
             length segs <= length content).
  { intros fuel segs H. apply segmentLoop_inv in H. destruct H as (tr & Ht & ->).
    apply segmentTrace_count in Ht. rewrite length_map. exact Ht. }
  split; [exact Hall|].
  intros Hfit Hsep Hlim.
  destruct (contentSegments_total weightedLength separator limit content
              Hfit Hsep Hlim) as (tr & _ & Hc).
  exists (map fst tr). split; [exact Hc|]. apply (Hall _ _ Hc).
Qed.

Lemma segment_count_bounded_witness :
  exists segs,
    contentSegments doubleWeight (str "==") 6 (str "ab==cdefg") = Some segs
    /\ length segs <= length (str "ab==cdefg").
Proof.
  apply (segment_count_bounded doubleWeight (str "==") 6 (str "ab==cdefg")).
  - intros u. unfold doubleWeight. simpl. lia.
  - discriminate.
  - lia.
Defined.

(** X4. A content that is not empty, holds no separator and fits the limit
    both in code units and in weight is one segment, itself. *)
Theorem short_content_one_segment (weightedLength : jsstring -> nat)
    (separator : jsstring) (limit : nat) (content : jsstring) :
  content <> [] ->
  indexOf content separator = None ->
  length content <= limit ->
  weightedLength content <= limit ->
  contentSegments weightedLength separator limit content = Some [content].
Proof.
  intros Hne Hi Hl Hw. unfold contentSegments. rewrite segmentLoop_unfold.
  rewrite (iteration_whole _ _ _ _ Hi Hl Hw).
  destruct content as [|u content]; [congruence|]. reflexivity.
Qed.

Lemma short_content_one_segment_witness :
  contentSegments doubleWeight (str "====") 280 (str "hello")
  = Some [str "hello"].
Proof.
  apply (short_content_one_segment doubleWeight (str "====") 280 (str "hello")).
  - discriminate.
  - reflexivity.
  - simpl. lia.
  - vm_compute. lia.
Defined.

(** X5. A separator that starts exactly at the limit, after a candidate
    that fits as it is, is swallowed with the segment, so the next segment
    does not begin with it; and the loop swallows a separator after a
    segment cut by length in that case only. *)
Theorem boundary_separator_swallowed (weightedLength : jsstring -> nat)
    (separator : jsstring) (limit : nat) :
  (forall remainingContent fuel,
     0 < limit ->
     indexOf remainingContent separator = Some limit ->
     weightedLength (firstn limit remainingContent) <= limit ->
     segmentLoop weightedLength separator limit (S fuel) remainingContent
     = option_map (cons (firstn limit remainingContent))
         (segmentLoop weightedLength separator limit fuel
            (skipn (limit + length separator) remainingContent)))
  /\ (forall remainingContent segment remainingContent',
        iteration weightedLength separator limit remainingContent
        = Some (segment, AtLength true, remainingContent') ->
        indexOf remainingContent separator = Some limit
        /\ segment = firstn limit remainingContent
        /\ length segment = limit
        /\ remainingContent = segment ++ separator ++ remainingContent').
Proof.
  split.
  - intros r fuel Hlim Hi Hw. rewrite segmentLoop_unfold.
    rewrite (iteration_swallow _ _ _ _ Hi Hw).
    pose proof (indexOf_bound _ _ _ Hi) as Hb.
    destruct r as [|u r]; [simpl in Hb; lia | reflexivity].
  - intros r seg r' H.
    destruct (iteration_boundary _ _ _ _ _ _ H) as (Hl & Hi & Hseg).
    repeat split; try assumption.
    apply iteration_consumed in H. unfold consumed in H. simpl in H.
    rewrite <- app_assoc in H. exact H.
Qed.

Lemma boundary_separator_swallowed_witness :
  segmentLoop (@length ascii) (str "==") 3 (S 8) (str "abc==defg")
  = option_map (cons (firstn 3 (str "abc==defg")))
      (segmentLoop (@length ascii) (str "==") 3 8
         (skipn (3 + length (str "==")) (str "abc==defg"))).
Proof.
  apply (proj1 (boundary_separator_swallowed (@length ascii) (str "==") 3)
           (str "abc==defg") 8).
  - lia.
  - reflexivity.
  - simpl. lia.
Defined.

Lemma segmentLoop_chunks (weightedLength : jsstring -> nat)
    (separator : jsstring) (limit : nat) :
  0 < limit ->
  forall fuel r,
    length r < fuel -> indexOf r separator = None ->
    Forall (fun block => weightedLength block <= limit) (chunks fuel limit r) ->
    segmentLoop weightedLength separator limit fuel r
    = Some (chunks fuel limit r).
Proof.
  intros Hlim. induction fuel as [|fuel IH]; intros r Hl Hi Hw; [lia|].
  rewrite segmentLoop_unfold. destruct r as [|u r]; [reflexivity|].
  assert (Hpos : 0 < length (u :: r)) by (simpl; lia).
  remember (u :: r) as r0 eqn:Er0.
  apply Nat.ltb_lt in Hpos as Hpos'. rewrite Hpos'.
  assert (Hc : chunks (S fuel) limit r0
               = firstn limit r0 :: chunks fuel limit (skipn limit r0)).
  { subst r0. reflexivity. }
  rewrite Hc in *. inversion Hw as [|? ? Hhead Htail]; subst.
  rewrite (iteration_chunk weightedLength separator limit _ Hi Hhead).
  rewrite IH.
  - reflexivity.
  - rewrite length_skipn. lia.
  - apply indexOf_None_skipn, Hi.
  - exact Htail.
Qed.

(** X6. A text without separator whose successive blocks of [limit] code
    units each weigh within the limit, as those of plain text do for
    twitter-text, is cut into these blocks. *)
Theorem plain_text_is_cut_every_limit_units (weightedLength : jsstring -> nat)
    (separator : jsstring) (limit : nat) (content : jsstring) :
  0 < limit ->
  indexOf content separator = None ->
  Forall (fun block => weightedLength block <= limit)
         (chunks (S (length content)) limit content) ->
  contentSegments weightedLength separator limit content
  = Some (chunks (S (length content)) limit content).
Proof.
  intros Hlim Hi Hw. unfold contentSegments.
  apply segmentLoop_chunks; [exact Hlim | lia | exact Hi | exact Hw].
Qed.

Lemma plain_text_is_cut_every_limit_units_witness :
  contentSegments linkWeight (str "====") 3 (str "abcdefgh")
  = Some (chunks (S (length (str "abcdefgh"))) 3 (str "abcdefgh")).
Proof.
  apply (plain_text_is_cut_every_limit_units linkWeight (str "====") 3
           (str "abcdefgh")).
  - lia.
  - reflexivity.
  - repeat constructor.
Defined.

(** ** Further properties of the dispatcher *)

Section DispatcherFacts.

Variable w : World.

Local Abbreviation accepted := (accepted w).

Lemma forSegments_texts (item : FeedItem) (first : bool) (segs : list jsstring) :
  map (fun r => value1 (req_body r)) (forSegments w item first segs)
  = firstn (length (forSegments w item first segs)) segs.
Proof.
  revert first. induction segs as [|seg segs IH]; intros first; [reflexivity|].
  cbn [forSegments]. destruct (axios_post w _ _); simpl;
    [f_equal; apply IH | reflexivity].
Qed.

Lemma forSegments_accepted (item : FeedItem) (first : bool) (segs : list jsstring) :
  Forall accepted (removelast (forSegments w item first segs)).
Proof.
  revert first. induction segs as [|seg segs IH]; intros first; [constructor|].
  cbn [forSegments]. destruct (axios_post w _ _) eqn:E; [|constructor].
  specialize (IH false).
  destruct (forSegments w item false segs) as [|r rs] eqn:Er; [constructor|].
  match goal with
  | |- Forall _ (removelast (?a :: _)) =>
      change (Forall accepted (a :: removelast (r :: rs)))
  end.
  constructor; [exact E | exact IH].
Qed.

Lemma forSegments_stopped (item : FeedItem) (first : bool) (segs : list jsstring) :
  length (forSegments w item first segs) < length segs ->
  exists front r,
    forSegments w item first segs = front ++ [r] /\ ~ accepted r.
Proof.
  revert first. induction segs as [|seg segs IH]; intros first H;
    [simpl in H; lia|].
  cbn [forSegments] in *. destruct (axios_post w _ _) eqn:E.
  - destruct (IH false) as (front & r & Hr & Hrej); [simpl in H; lia|].
    rewrite Hr. eexists (_ :: front), r. split; [reflexivity | exact Hrej].
  - eexists [], _. split; [reflexivity|].
    unfold accepted. simpl. rewrite E. discriminate.
Qed.

Lemma forSegments_length (item : FeedItem) (first : bool) (segs : list jsstring) :
  length (forSegments w item first segs) <= length segs.
Proof.
  revert first. induction segs as [|seg segs IH]; intros first; [reflexivity|].
  cbn [forSegments]. destruct (axios_post w _ _); simpl;
    [specialize (IH false) |]; lia.
Qed.

(** The text of a request is a segment of the content of its item. *)
Lemma mapCallbacks_texts (last : option number) (items : list FeedItem)
    (tasks : list (list request)) (r : request) :
  mapCallbacks w last items = Some tasks ->
  In r (concat tasks) ->
  exists segs,
    segments w (htmlToText w (description (req_item r))) = Some segs
    /\ In (value1 (req_body r)) segs.
Proof.
  revert tasks. induction items as [|item items IH]; intros tasks H Hr; simpl in H.
  - injection H as <-. destruct Hr.
  - destruct (callback w last item) as [reqs|] eqn:Ec; [|discriminate].
    destruct (mapCallbacks w last items) as [tasks'|]; [|discriminate].
    injection H as <-. cbn [concat] in Hr. apply in_app_or in Hr.
    destruct Hr as [Hr|Hr]; [|apply (IH tasks' eq_refl Hr)].
    unfold callback in Ec.
    destruct (nocrosspost item); [injection Ec as <-; destruct Hr|].
    destruct (newer last (pubDate item)); [|injection Ec as <-; destruct Hr].
    destruct (segments w (htmlToText w (description item))) as [segs|] eqn:Es;
      [|discriminate].
    injection Ec as <-.
    pose proof (forSegments_item w item true segs) as Hitem.
    rewrite Forall_forall in Hitem. rewrite (Hitem r Hr).
    exists segs. split; [exact Es|].
    apply (firstn_incl (length (forSegments w item true segs))).
    rewrite <- forSegments_texts.
    apply (in_map (fun r => value1 (req_body r))), Hr.
Qed.

End DispatcherFacts.

(** X7. Within an item the segments are posted in order and a rejected
    request ends the item: the texts of the requests are the first
    segments, every request but the last was accepted, and when segments
    are left unposted the last request is the one that was rejected. *)
Theorem rejected_post_ends_the_item (w : World) (item : FeedItem)
    (first : bool) (segs : list jsstring) :
  map (fun r => value1 (req_body r)) (forSegments w item first segs)
  = firstn (length (forSegments w item first segs)) segs
  /\ Forall (accepted w) (removelast (forSegments w item first segs))
  /\ (length (forSegments w item first segs) < length segs ->
      exists front r,
        forSegments w item first segs = front ++ [r] /\ ~ accepted w r)
  /\ (Forall (accepted w) (forSegments w item first segs) ->
      length (forSegments w item first segs) = length segs).
Proof.
  split; [apply forSegments_texts|].
  split; [apply forSegments_accepted|].
  split; [apply forSegments_stopped|].
  intros Hall.
  destruct (Nat.eq_dec (length (forSegments w item first segs)) (length segs))
    as [?|Hne]; [assumption|].
  pose proof (forSegments_length w item first segs) as Hle.
  destruct (forSegments_stopped w item first segs) as (front & r & Hr & Hrej);
    [lia|].
  rewrite Hr in Hall. apply Forall_app in Hall. destruct Hall as [_ Hall].
  inversion Hall; subst. contradiction.
Qed.

Lemma rejected_post_ends_the_item_witness :
  exists front r,
    forSegments (withDelivery illustratedRun onlyA (@oneByOne request))
      illustratedPost true [str "a"; str "b"; str "c"]
    = front ++ [r]
    /\ ~ accepted (withDelivery illustratedRun onlyA (@oneByOne request)) r.
Proof.
  apply (proj1 (proj2 (proj2
           (rejected_post_ends_the_item
              (withDelivery illustratedRun onlyA (@oneByOne request))
              illustratedPost true [str "a"; str "b"; str "c"])))).
  vm_compute. lia.
Defined.

(** ** Further properties of a run *)

Lemma eventLoopOrder_nil {A : Type} (tasks : list (list A)) (t : list A) :
  eventLoopOrder tasks t -> concat tasks = [] -> t = [].
Proof.
  intros Hm Hnil. apply eventLoopOrder_Permutation in Hm. rewrite Hnil in Hm.
  apply Permutation_sym, Permutation_nil in Hm. exact Hm.
Qed.

(** X8. With a stored checkpoint other than 0, every request of a run is
    for an item dated after the checkpoint. *)
Theorem requests_are_newer_than_checkpoint (w : World) (data : jsstring)
    (c : Z) (items : list FeedItem) :
  axios_get w = Some data -> ddb_get w = Some (Some (Num c)) ->
  parseString w data = Some items ->
  c <> 0%Z -> fairWorld w -> singleUnitFits w ->
  exists o,
    handler w = Some o
    /\ forall r, In r (posted o) ->
                 exists z, pubDate (req_item r) = Num z /\ (c < z)%Z.
Proof.
  intros Hget Hddb Hparse Hc Hfair Hfit.
  destruct (handler_run w data _ items Hget Hddb Hparse Hfit)
    as (tasks & _ & Hrun).
  eexists. split; [exact Hrun|].
  apply (nonzero_checkpoint_selects_newer w data c _ Hget Hddb Hc Hfair Hrun).
Qed.

Lemma requests_are_newer_than_checkpoint_witness :
  exists o,
    handler threePostsRun = Some o
    /\ forall r, In r (posted o) ->
                 exists z, pubDate (req_item r) = Num z /\ (60 < z)%Z.
Proof.
  apply (requests_are_newer_than_checkpoint threePostsRun (str "<rss/>") 60
           threePosts).
  - reflexivity.
  - reflexivity.
  - reflexivity.
  - lia.
  - apply quietWorld_fair.
  - intros u. simpl. lia.
Defined.

(** X9. For dates not before 1970 the checkpoint a run commits is never
    below the stored one. *)
Theorem checkpoint_never_decreases (w : World) (data : jsstring) (c : Z)
    (items : list FeedItem) :
  axios_get w = Some data -> ddb_get w = Some (Some (Num c)) ->
  parseString w data = Some items ->
  fairWorld w -> singleUnitFits w ->
  (0 <= c)%Z ->
  Forall (fun item => goodDate (pubDate item)) items ->
  exists o v,
    handler w = Some o /\ stored o = [Num v] /\ (c <= v)%Z.
Proof.
  intros Hget Hddb Hparse Hfair Hfit Hc Hitems.
  destruct (handler_run w data _ items Hget Hddb Hparse Hfit)
    as (tasks & Ht & Hrun).
  pose proof (eventLoopOrder_Permutation _ _ (Hfair tasks)) as Hperm.
  assert (Hlatest : Forall (fun item => goodDate (pubDate item)) (latestItems w items)).
  { rewrite Forall_forall in *. intros item Hin.
    apply Hitems, (latestItems_incl w), Hin. }
  pose proof (checkpoint_highWater w (Some (Num c)) _ tasks _ Ht Hperm Hc Hlatest)
    as Hnew.
  set (dates := map pubDate (filter (dispatches w (Some (Num c))) (latestItems w items)))
    in *.
  assert (Hdates : Forall goodDate dates).
  { unfold dates. rewrite Forall_map. rewrite Forall_forall in *.
    intros item Hin. apply filter_In in Hin. apply Hlatest, Hin. }
  pose proof (highWater_newest dates (Some (Num c)) Hc Hdates) as Hn.
  pose proof (highWater_good dates (Some (Num c)) Hc Hdates) as Hg.
  destruct (highWater (Some (Num c)) dates) as [[|v]|] eqn:Eh; simpl in Hg, Hn.
  - contradiction.
  - destruct Hn as (_ & Hbelow & _). specialize (Hbelow _ eq_refl).
    simpl in Hbelow. apply Z.ltb_ge in Hbelow.
    eexists _, v. split; [exact Hrun|].
    rewrite stored_commit, Hnew. split; [reflexivity | exact Hbelow].
  - destruct Hn as [Hnone _]. discriminate.
Qed.

Lemma checkpoint_never_decreases_witness :
  exists o v,
    handler threePostsRun = Some o /\ stored o = [Num v] /\ (60 <= v)%Z.
Proof.
  apply (checkpoint_never_decreases threePostsRun (str "<rss/>") 60 threePosts).
  - reflexivity.
  - reflexivity.
  - reflexivity.
  - apply quietWorld_fair.
  - intros u. simpl. lia.
  - lia.
  - repeat constructor; simpl; lia.
Defined.

(** X10. A run without a stored checkpoint over a feed with items of which
    it dispatches none (all of them tagged, without text or behind
    [MAX_ITEMS]) posts nothing and sends no [PutItemCommand]: [toString]
    of the [null] checkpoint throws in the [.then], which the [.catch]
    logs in debug mode only. *)
Theorem nothing_dispatched_nothing_stored (w : World) (data : jsstring)
    (items : list FeedItem) :
  axios_get w = Some data -> ddb_get w = Some None ->
  parseString w data = Some items ->
  items <> [] ->
  fairWorld w -> singleUnitFits w ->
  filter (dispatches w None) (latestItems w items) = [] ->
  handler w
  = Some {| returned := Fulfilled; posted := []; stored := [];
            logged := debugLog w ErrorInPromiseAll |}.
Proof.
  intros Hget Hddb Hparse _ Hfair Hfit Hnone.
  destruct (handler_run w data _ items Hget Hddb Hparse Hfit)
    as (tasks & Ht & Hrun).
  assert (Hnil : concat tasks = []).
  { destruct (concat tasks) as [|r rs] eqn:E; [reflexivity|].
    pose proof (mapCallbacks_requests w None _ tasks r Ht) as Hr.
    rewrite E, Hnone in Hr. destruct (Hr (or_introl eq_refl)). }
  rewrite (eventLoopOrder_nil _ _ (Hfair tasks) Hnil) in Hrun.
  exact Hrun.
Qed.

Lemma nothing_dispatched_nothing_stored_witness :
  handler pictureRun
  = Some {| returned := Fulfilled; posted := []; stored := [];
            logged := debugLog pictureRun ErrorInPromiseAll |}.
Proof.
  apply (nothing_dispatched_nothing_stored pictureRun (str "<rss/>")
           [pictureOnly]).
  - reflexivity.
  - reflexivity.
  - reflexivity.
  - discriminate.
  - apply quietWorld_fair.
  - intros u. simpl. lia.
  - vm_compute. reflexivity.
Defined.

(** X11. For dates not before 1970 the checkpoint a run commits depends
    neither on the answers of the webhook nor on the order of the event
    loop: a rejected post still moves the checkpoint past its item. *)
Theorem checkpoint_ignores_delivery (w : World) (data : jsstring)
    (last : option number) (items : list FeedItem)
    (answers : eventName -> postData -> bool)
    (order : list (list request) -> list request) :
  axios_get w = Some data -> ddb_get w = Some last ->
  parseString w data = Some items ->
  fairWorld w -> fairWorld (withDelivery w answers order) ->
  singleUnitFits w ->
  goodCheckpoint last ->
  Forall (fun item => goodDate (pubDate item)) items ->
  exists o o',
    handler w = Some o
    /\ handler (withDelivery w answers order) = Some o'
    /\ stored o' = stored o.
Proof.
  intros Hget Hddb Hparse Hfair Hfair' Hfit Hlast Hitems.
  set (w' := withDelivery w answers order) in *.
  destruct (handler_run w data last items Hget Hddb Hparse Hfit)
    as (tasks & Ht & Hrun).
  destruct (handler_run w' data last items Hget Hddb Hparse Hfit)
    as (tasks' & Ht' & Hrun').
  pose proof (eventLoopOrder_Permutation _ _ (Hfair tasks)) as Hperm.
  pose proof (eventLoopOrder_Permutation _ _ (Hfair' tasks')) as Hperm'.
  assert (Hlatest : Forall (fun item => goodDate (pubDate item)) (latestItems w items)).
  { rewrite Forall_forall in *. intros item Hin.
    apply Hitems, (latestItems_incl w), Hin. }
  pose proof (checkpoint_highWater w last _ tasks _ Ht Hperm Hlast Hlatest) as Hnew.
  pose proof (checkpoint_highWater w' last _ tasks' _ Ht' Hperm' Hlast Hlatest)
    as Hnew'.
  do 2 eexists. split; [exact Hrun|]. split; [exact Hrun'|].
  rewrite !stored_commit, Hnew, Hnew'. reflexivity.
Qed.

Lemma checkpoint_ignores_delivery_witness :
  exists o o',
    handler threePostsRun = Some o
    /\ handler (withDelivery threePostsRun onlyA (@oneByOne request)) = Some o'
    /\ stored o' = stored o.
Proof.
  apply (checkpoint_ignores_delivery threePostsRun (str "<rss/>")
           (Some (Num 60)) threePosts onlyA (@oneByOne request)).
  - reflexivity.
  - reflexivity.
  - reflexivity.
  - apply quietWorld_fair.
  - intros tasks. apply oneByOne_eventLoopOrder.
  - intros u. simpl. lia.
  - simpl. lia.
  - repeat constructor; simpl; lia.
Defined.

(** X12. When [MAX_ITEMS] is [NaN], as [parseInt] gives for a variable that
    is not set or not a number, or is 0, no item of the feed is considered:
    the run posts nothing and writes the stored checkpoint back as it is. *)
Theorem no_max_items_no_dispatch (w : World) (data : jsstring)
    (last : option number) (items : list FeedItem) :
  axios_get w = Some data -> ddb_get w = Some last ->
  parseString w data = Some items ->
  fairWorld w ->
  MAX_ITEMS w = NaN \/ MAX_ITEMS w = Num 0 ->
  exists o,
    handler w = Some o
    /\ returned o = Fulfilled
    /\ posted o = []
    /\ stored o = match last with Some v => [v] | None => [] end.
Proof.
  intros Hget Hddb Hparse Hfair Hmax.
  assert (Hlatest : latestItems w items = []).
  { unfold latestItems. destruct Hmax as [-> | ->]; reflexivity. }
  unfold handler. rewrite Hget, Hddb, Hparse, Hlatest. cbn [mapCallbacks].
  rewrite (eventLoopOrder_nil _ _ (Hfair []) eq_refl).
  eexists. split; [reflexivity|].
  rewrite returned_commit, posted_commit, stored_commit.
  repeat split.
Qed.

Lemma no_max_items_no_dispatch_witness :
  exists o,
    handler (withMaxItems threePostsRun NaN) = Some o
    /\ returned o = Fulfilled
    /\ posted o = []
    /\ stored o = [Num 60].
Proof.
  apply (no_max_items_no_dispatch (withMaxItems threePostsRun NaN)
           (str "<rss/>") (Some (Num 60)) threePosts).
  - reflexivity.
  - reflexivity.
  - reflexivity.
  - intros tasks. apply oneByOne_eventLoopOrder.
  - left. reflexivity.
Defined.

(** X13. An item behind the first [MAX_ITEMS] items of the feed is never
    posted, however new it is. *)
Theorem only_first_max_items_posted (w : World) (data : jsstring)
    (last : option number) (items : list FeedItem) (m : Z) :
  axios_get w = Some data -> ddb_get w = Some last ->
  parseString w data = Some items ->
  fairWorld w -> singleUnitFits w ->
  MAX_ITEMS w = Num m -> (0 <= m)%Z ->
  exists o,
    handler w = Some o
    /\ forall r, In r (posted o) ->
                 In (req_item r) (firstn (Z.to_nat m) items).
Proof.
  intros Hget Hddb Hparse Hfair Hfit Hmax Hm.
  destruct (handler_run w data last items Hget Hddb Hparse Hfit)
    as (tasks & Ht & Hrun).
  eexists. split; [exact Hrun|].
  rewrite posted_commit. intros r Hr.
  apply (Permutation_in _ (eventLoopOrder_Permutation _ _ (Hfair tasks))) in Hr.
  apply (mapCallbacks_requests w last _ tasks r Ht) in Hr.
  apply filter_In in Hr. destruct Hr as [Hr _].
  unfold latestItems in Hr. rewrite <- in_rev, Hmax in Hr. simpl in Hr.
  destruct (Z.ltb_spec m 0); [lia | exact Hr].
Qed.

Lemma only_first_max_items_posted_witness :
  exists o,
    handler (withMaxItems threePostsRun (Num 1)) = Some o
    /\ forall r, In r (posted o) ->
                 In (req_item r) (firstn (Z.to_nat 1) threePosts).
Proof.
  apply (only_first_max_items_posted (withMaxItems threePostsRun (Num 1))
           (str "<rss/>") (Some (Num 60)) threePosts 1).
  - reflexivity.
  - reflexivity.
  - reflexivity.
  - intros tasks. apply oneByOne_eventLoopOrder.
  - intros u. simpl. lia.
  - reflexivity.
  - lia.
Defined.

(** X14. The text of every request of a run is a segment of the content of
    its item, so it has at most 280 code units and holds no separator. *)
Theorem posted_texts_are_segments (w : World) (data : jsstring)
    (last : option number) (items : list FeedItem) :
  axios_get w = Some data -> ddb_get w = Some last ->
  parseString w data = Some items ->
  fairWorld w -> singleUnitFits w ->
  exists o,
    handler w = Some o
    /\ forall r, In r (posted o) ->
         (exists segs,
            segments w (htmlToText w (description (req_item r))) = Some segs
            /\ In (value1 (req_body r)) segs)
         /\ length (value1 (req_body r)) <= 280
         /\ indexOf (value1 (req_body r)) (str "====") = None.
Proof.
  intros Hget Hddb Hparse Hfair Hfit.
  destruct (handler_run w data last items Hget Hddb Hparse Hfit)
    as (tasks & Ht & Hrun).
  eexists. split; [exact Hrun|].
  rewrite posted_commit. intros r Hr.
  apply (Permutation_in _ (eventLoopOrder_Permutation _ _ (Hfair tasks))) in Hr.
  destruct (mapCallbacks_texts w last _ tasks r Ht Hr) as (segs & Hs & Hin).
  split; [exists segs; split; assumption|].
  unfold segments, contentSegments in Hs.
  assert (Hsep : str "====" <> []) by discriminate.
  pose proof (segmentLoop_clean _ _ _ _ _ _ Hsep Hs) as Hclean.
  apply segmentLoop_inv in Hs. destruct Hs as (tr & Htr & ->).
  apply segmentTrace_lengths in Htr.
  rewrite Forall_forall in Hclean. split; [|apply Hclean, Hin].
  rewrite in_map_iff in Hin. destruct Hin as (e & <- & He).
  rewrite Forall_forall in Htr. apply Htr, He.
Qed.

Lemma posted_texts_are_segments_witness :
  exists o,
    handler threePostsRun = Some o
    /\ forall r, In r (posted o) ->
         (exists segs,
            segments threePostsRun
              (htmlToText threePostsRun (description (req_item r))) = Some segs
            /\ In (value1 (req_body r)) segs)
         /\ length (value1 (req_body r)) <= 280
         /\ indexOf (value1 (req_body r)) (str "====") = None.
Proof.
  apply (posted_texts_are_segments threePostsRun (str "<rss/>")
           (Some (Num 60)) threePosts).
  - reflexivity.
  - reflexivity.
  - reflexivity.
  - apply quietWorld_fair.
  - intros u. simpl. lia.
Defined.

(** ** Properties of the first variant *)

Section FirstVariantFacts.

Variable w : World.
Variable pubDate0 : FeedItem -> jsstring.

Lemma first_issued_items (last : option number) (items : list FeedItem) :
  map FirstVariant.req_item (FirstVariant.issued w pubDate0 last items)
  = filter (fun item => newer last (pubDate item)) (slice0 items (MAX_ITEMS w)).
Proof.
  unfold FirstVariant.issued, FirstVariant.latestItems.
  induction (slice0 items (MAX_ITEMS w)) as [|item l IH]; [reflexivity|].
  cbn [flat_map filter]. rewrite map_app, IH.
  unfold FirstVariant.callback. destruct (newer last (pubDate item)); reflexivity.
Qed.


Lemma first_posted_commit (reqs : list FirstVariant.request) (new : option number) :
  FirstVariant.posted (FirstVariant.commit w reqs new) = reqs.
Proof. destruct new; reflexivity. Qed.

Lemma first_stored_commit (reqs : list FirstVariant.request) (new : option number) :
  FirstVariant.stored (FirstVariant.commit w reqs new)
  = match new with Some v => [v] | None => [] end.
Proof. destruct new; reflexivity. Qed.

Lemma first_handler_run (data : jsstring) (last : option number)
    (items : list FeedItem) :
  axios_get w = Some data -> ddb_get w = Some last ->
  parseString w data = Some items ->
  FirstVariant.handler w pubDate0
  = FirstVariant.commit w (FirstVariant.issued w pubDate0 last items)
      (FirstVariant.newProcessedPubDate last
         (FirstVariant.issued w pubDate0 last items)).
Proof.
  intros Hget Hddb Hparse. unfold FirstVariant.handler.
  rewrite Hget, Hddb, Hparse. reflexivity.
Qed.

Lemma first_checkpoint (last : option number) (items : list FeedItem) :
  goodCheckpoint last ->
  Forall (fun item => goodDate (pubDate item)) items ->
  FirstVariant.newProcessedPubDate last (FirstVariant.issued w pubDate0 last items)
  = highWater last
      (map pubDate (filter (fun item => newer last (pubDate item))
                      (slice0 items (MAX_ITEMS w)))).
Proof.
  intros Hlast Hitems. unfold FirstVariant.newProcessedPubDate.
  rewrite <- (map_map FirstVariant.req_item pubDate), first_issued_items.
  apply fold_renew_highWater; [exact Hlast|].
  rewrite Forall_map. rewrite Forall_forall in *.
  intros item Hin. apply filter_In in Hin. destruct Hin as [Hin _].
  apply Hitems, (slice0_incl _ _ _ Hin).
Qed.

End FirstVariantFacts.



(** X16. For dates not before 1970 the first variant commits the newest of
    the stored checkpoint and the dates of the items it posts, whatever the
    webhook answers; without a stored checkpoint and without an item it
    sends no [PutItemCommand]. *)
Theorem first_variant_checkpoint (w : World) (pubDate0 : FeedItem -> jsstring)
    (data : jsstring) (last : option number) (items : list FeedItem) :
  axios_get w = Some data -> ddb_get w = Some last ->
  parseString w data = Some items ->
  goodCheckpoint last ->
  Forall (fun item => goodDate (pubDate item)) items ->
  FirstVariant.stored (FirstVariant.handler w pubDate0)
  = match highWater last
            (map pubDate (filter (fun item => newer last (pubDate item))
                            (slice0 items (MAX_ITEMS w))))
    with
    | Some v => [v]
    | None => []
    end.
Proof.
  intros Hget Hddb Hparse Hlast Hitems.
  rewrite (first_handler_run w pubDate0 data last items Hget Hddb Hparse).
  rewrite first_stored_commit, (first_checkpoint w pubDate0 last items Hlast Hitems).
  reflexivity.
Qed.

Lemma first_variant_checkpoint_witness :
  FirstVariant.stored (FirstVariant.handler threePostsRun (fun _ => str "Thu"))
  = match highWater (Some (Num 60))
            (map pubDate (filter (fun item => newer (Some (Num 60)) (pubDate item))
                            (slice0 threePosts (MAX_ITEMS threePostsRun))))
    with
    | Some v => [v]
    | None => []
    end.
Proof.
  apply (first_variant_checkpoint threePostsRun (fun _ => str "Thu")
           (str "<rss/>") (Some (Num 60)) threePosts).
  - reflexivity.
  - reflexivity.
  - reflexivity.
  - simpl. lia.
  - repeat constructor; simpl; lia.
Defined.

(** X17. On a feed without tagged items in which every item has text, the
    second variant starts the dispatch of the very items the first variant
    posts, in the reverse order, and for dates not before 1970 both commit
    the same checkpoint. *)
Theorem variants_agree_on_items_and_checkpoint (w : World)
    (pubDate0 : FeedItem -> jsstring) (data : jsstring)
    (last : option number) (items : list FeedItem) :
  axios_get w = Some data -> ddb_get w = Some last ->
  parseString w data = Some items ->
  fairWorld w -> singleUnitFits w ->
  goodCheckpoint last ->
  Forall (fun item => goodDate (pubDate item)) items ->
  Forall (fun item => nocrosspost item = false
                      /\ htmlToText w (description item) <> []) items ->
  exists o firsts later,
    handler w = Some o
    /\ posted o = firsts ++ later
    /\ map req_item firsts
       = rev (map FirstVariant.req_item
                (FirstVariant.posted (FirstVariant.handler w pubDate0)))
    /\ stored o = FirstVariant.stored (FirstVariant.handler w pubDate0).
Proof.
  intros Hget Hddb Hparse Hfair Hfit Hlast Hitems Hplain.
  destruct (handler_run w data last items Hget Hddb Hparse Hfit)
    as (tasks & Ht & Hrun).
  pose proof (eventLoopOrder_Permutation _ _ (Hfair tasks)) as Hperm.
  destruct (Hfair tasks) as (later & Hissued & _).
  assert (Hlatest : Forall (fun item => goodDate (pubDate item)) (latestItems w items)).
  { rewrite Forall_forall in *. intros item Hin.
    apply Hitems, (latestItems_incl w), Hin. }
  assert (Hsel : filter (dispatches w last) (latestItems w items)
                 = rev (filter (fun item => newer last (pubDate item))
                          (slice0 items (MAX_ITEMS w)))).
  { unfold latestItems. rewrite <- filter_rev. apply filter_ext_in.
    intros item Hin. apply in_rev, slice0_incl in Hin.
    rewrite Forall_forall in Hplain. destruct (Hplain item Hin) as [Htag Htext].
    destruct (segments_first w _ Hfit Htext) as (seg & segs & Es).
    unfold dispatches. rewrite Htag, Es. simpl. apply andb_true_r. }
  rewrite (first_handler_run w pubDate0 data last items Hget Hddb Hparse).
  rewrite first_posted_commit, first_stored_commit, first_issued_items.
  rewrite (first_checkpoint w pubDate0 last items Hlast Hitems).
  exists (commit w (interleave w tasks)
            (newProcessedPubDate last (interleave w tasks))),
         (flat_map (firstn 1) tasks), later.
  split; [exact Hrun|]. rewrite posted_commit, stored_commit.
  split; [exact Hissued|]. split.
  - rewrite (mapCallbacks_firsts w last _ tasks Ht). exact Hsel.
  - rewrite (checkpoint_highWater w last _ tasks _ Ht Hperm Hlast Hlatest), Hsel.
    rewrite (highWater_same_dates last
               (map pubDate (rev (filter (fun item => newer last (pubDate item))
                                    (slice0 items (MAX_ITEMS w)))))
               (map pubDate (filter (fun item => newer last (pubDate item))
                               (slice0 items (MAX_ITEMS w)))));
      [reflexivity | exact Hlast | |].
    + rewrite Forall_map. rewrite Forall_forall in *.
      intros item Hin. apply in_rev, filter_In in Hin. destruct Hin as [Hin _].
      apply Hitems, (slice0_incl _ _ _ Hin).
    + intros d. rewrite map_rev. symmetry. apply in_rev.
Qed.

Lemma variants_agree_on_items_and_checkpoint_witness :
  exists o firsts later,
    handler threePostsRun = Some o
    /\ posted o = firsts ++ later
    /\ map req_item firsts
       = rev (map FirstVariant.req_item
                (FirstVariant.posted
                   (FirstVariant.handler threePostsRun (fun _ => str "Thu"))))
    /\ stored o
       = FirstVariant.stored
           (FirstVariant.handler threePostsRun (fun _ => str "Thu")).
Proof.
  apply (variants_agree_on_items_and_checkpoint threePostsRun
           (fun _ => str "Thu") (str "<rss/>") (Some (Num 60)) threePosts).
  - reflexivity.
  - reflexivity.
  - reflexivity.
  - apply quietWorld_fair.
  - intros u. simpl. lia.
  - simpl. lia.
  - repeat constructor; simpl; lia.
  - repeat constructor; discriminate.
Defined.

(** ** The order of the requests of one item *)

Lemma merged_filter {A : Type} (P : A -> bool) (ls : list (list A)) (t : list A) :
  merged ls t -> merged (map (filter P) ls) (filter P t).
Proof.
  induction 1 as [ls H | before x l after t _ IH].
  - simpl. constructor.
    induction ls as [|l ls IHls]; [reflexivity|].
    simpl in *. apply app_eq_nil in H. destruct H as [-> H].
    simpl. apply IHls, H.
  - rewrite map_app in *. cbn [map filter] in *.
    destruct (P x); [apply merged_next|]; exact IH.
Qed.

Lemma concat_no_filled {A : Type} (ls : list (list A)) :
  filter (fun l => 0 <? length l) ls = [] -> concat ls = [].
Proof.
  induction ls as [|l ls IH]; [reflexivity|]. simpl.
  destruct l as [|x l]; simpl; [exact IH | discriminate].
Qed.

(** When one sequence at most is not empty, there is one way to merge. *)
Lemma merged_lonely {A : Type} (ls : list (list A)) (t : list A) :
  merged ls t ->
  length (filter (fun l => 0 <? length l) ls) <= 1 ->
  t = concat ls.
Proof.
  induction 1 as [ls H | before x l after t _ IH]; intros Hone.
  - symmetry. exact H.
  - rewrite filter_app in Hone. cbn [filter length Nat.ltb Nat.leb] in Hone.
    rewrite length_app in Hone. cbn [length] in Hone.
    assert (Hb : filter (fun l => 0 <? length l) before = []).
    { destruct (filter _ before); [reflexivity | simpl in Hone; lia]. }
    assert (Ha : filter (fun l => 0 <? length l) after = []).
    { destruct (filter _ after); [reflexivity | simpl in Hone; lia]. }
    rewrite concat_app in *. cbn [concat] in *.
    rewrite (concat_no_filled _ Hb), (concat_no_filled _ Ha) in *.
    simpl. f_equal. apply IH.
    rewrite filter_app, Hb. cbn [filter]. rewrite Ha.
    destruct (0 <? length l); simpl; lia.
Qed.

Section OneItem.

Variable w : World.
Variable last : option number.
Variable sel : FeedItem -> bool.

Local Abbreviation ofSel := (fun r : request => sel (req_item r)).

Lemma filter_own (item : FeedItem) (reqs : list request) :
  Forall (fun r => req_item r = item) reqs ->
  filter ofSel reqs = if sel item then reqs else [].
Proof.
  induction 1 as [|r reqs Hr _ IH]; [destruct (sel item); reflexivity|].
  cbn [filter]. rewrite Hr, IH. destruct (sel item); reflexivity.
Qed.

Lemma Forall_own_firstn (item : FeedItem) (n : nat) (reqs : list request) :
  Forall (fun r => req_item r = item) reqs ->
  Forall (fun r => req_item r = item) (firstn n reqs).
Proof.
  intros H. rewrite Forall_forall in *. intros r Hr.
  apply H, (firstn_incl n), Hr.
Qed.

Lemma Forall_own_skipn (item : FeedItem) (n : nat) (reqs : list request) :
  Forall (fun r => req_item r = item) reqs ->
  Forall (fun r => req_item r = item) (skipn n reqs).
Proof.
  intros H. rewrite Forall_forall in *. intros r Hr. apply H.
  rewrite <- (firstn_skipn n reqs). apply in_or_app. right. exact Hr.
Qed.

(** Among the requests of the callbacks, those of the selected items are
    the requests of the callbacks of the selected items. *)
Lemma mapCallbacks_selected (items : list FeedItem) (tasks : list (list request)) :
  mapCallbacks w last items = Some tasks ->
  exists tasks',
    mapCallbacks w last (filter sel items) = Some tasks'
    /\ filter ofSel (flat_map (firstn 1) tasks) = flat_map (firstn 1) tasks'
    /\ concat (map (filter ofSel) (map (skipn 1) tasks))
       = concat (map (skipn 1) tasks')
    /\ length (filter (fun l => 0 <? length l)
                 (map (filter ofSel) (map (skipn 1) tasks)))
       <= length tasks'.
Proof.
  revert tasks. induction items as [|item items IH]; intros tasks H; simpl in H.
  - injection H as <-. exists []. repeat split. simpl. lia.
  - destruct (callback w last item) as [reqs|] eqn:Ec; [|discriminate].
    destruct (mapCallbacks w last items) as [tasks0|]; [|discriminate].
    injection H as <-.
    destruct (IH tasks0 eq_refl) as (tasks' & Ht' & Hf & Hc & Hn).
    pose proof (proj1 (callback_requests w last item reqs Ec)) as Hown.
    cbn [filter flat_map map concat].
    rewrite filter_app.
    rewrite (filter_own item _ (Forall_own_firstn item 1 reqs Hown)).
    rewrite (filter_own item _ (Forall_own_skipn item 1 reqs Hown)).
    destruct (sel item).
    + exists (reqs :: tasks'). cbn [mapCallbacks]. rewrite Ec, Ht'.
      split; [reflexivity|]. cbn [flat_map map concat].
      rewrite Hf, Hc. split; [reflexivity|]. split; [reflexivity|].
      destruct (0 <? length (skipn 1 reqs)); cbn [length]; lia.
    + exists tasks'. split; [exact Ht'|].
      rewrite Hf, Hc. split; [reflexivity|]. split; [reflexivity|].
      exact Hn.
Qed.

End OneItem.

(** X18. The requests of one item are issued in the order of its segments
    even though the items are dispatched side by side: picking out of all
    the requests of a run those of a single considered item gives the
    requests of its callback, in their order. *)
Theorem requests_of_one_item_in_order (w : World) (data : jsstring)
    (last : option number) (items : list FeedItem)
    (sel : FeedItem -> bool) (item : FeedItem) :
  axios_get w = Some data -> ddb_get w = Some last ->
  parseString w data = Some items ->
  fairWorld w -> singleUnitFits w ->
  filter sel (latestItems w items) = [item] ->
  exists o reqs,
    handler w = Some o
    /\ callback w last item = Some reqs
    /\ filter (fun r => sel (req_item r)) (posted o) = reqs.
Proof.
  intros Hget Hddb Hparse Hfair Hfit Hsel.
  destruct (handler_run w data last items Hget Hddb Hparse Hfit)
    as (tasks & Ht & Hrun).
  destruct (Hfair tasks) as (later & Hissued & Hmerged).
  destruct (mapCallbacks_selected w last sel _ tasks Ht)
    as (tasks' & Ht' & Hf & Hc & Hn).
  rewrite Hsel in Ht'. cbn [mapCallbacks] in Ht'.
  destruct (callback w last item) as [reqs|] eqn:Ec; [|discriminate].
  injection Ht' as <-.
  exists (commit w (interleave w tasks)
            (newProcessedPubDate last (interleave w tasks))), reqs.
  split; [exact Hrun|]. split; [reflexivity|].
  rewrite posted_commit, Hissued, filter_app, Hf.
  apply (merged_filter (fun r => sel (req_item r))) in Hmerged.
  rewrite (merged_lonely _ _ Hmerged Hn), Hc.
  cbn [flat_map map concat]. rewrite !app_nil_r. apply firstn_skipn.
Qed.

Lemma requests_of_one_item_in_order_witness :
  exists o reqs,
    handler threePostsRun = Some o
    /\ callback threePostsRun (Some (Num 60))
         (post 70 "second====more" None None) = Some reqs
    /\ filter (fun r => match pubDate (req_item r) with
                        | Num z => (z =? 70)%Z
                        | NaN => false
                        end) (posted o) = reqs.
Proof.
  apply (requests_of_one_item_in_order threePostsRun (str "<rss/>")
           (Some (Num 60)) threePosts
           (fun item => match pubDate item with
                        | Num z => (z =? 70)%Z
                        | NaN => false
                        end)
           (post 70 "second====more" None None)).
  - reflexivity.
  - reflexivity.
  - reflexivity.
  - apply quietWorld_fair.
  - intros u. simpl. lia.
  - vm_compute. reflexivity.
Defined.

(** ** Segments and runs, once more *)

(** X19. The segmenter leaves its own length-cut segments alone: cutting
    again a segment that was cut by length gives that segment and no
    other. *)
Theorem length_cut_segments_are_stable (weightedLength : jsstring -> nat)
    (separator : jsstring) (limit : nat) (content : jsstring) :
  (forall u : ascii, weightedLength [u] <= limit) ->
  separator <> [] -> 0 < limit ->
  exists tr,
    segmentTrace weightedLength separator limit (S (length content)) content
    = Some tr
    /\ contentSegments weightedLength separator limit content = Some (map fst tr)
    /\ Forall (fun e => snd e <> AtSeparator ->
                        contentSegments weightedLength separator limit (fst e)
                        = Some [fst e]) tr.
Proof.
  intros Hfit Hsep Hlim.
  destruct (contentSegments_total weightedLength separator limit content
              Hfit Hsep Hlim) as (tr & Ht & Hc).
  exists tr. split; [exact Ht|]. split; [exact Hc|].
  pose proof (segmentTrace_bound _ _ _ _ _ _ Ht) as Hweight.
  pose proof (segmentTrace_lengths _ _ _ _ _ _ Ht) as Hlen.
  pose proof (segmentTrace_not_empty _ _ _ Hfit Hlim _ _ _ Ht) as Hne.
  pose proof (segmentLoop_clean _ _ _ _ _ _ Hsep Hc) as Hclean.
  rewrite Forall_map in Hclean. rewrite Forall_forall in *.
  intros e He Hhow. apply short_content_one_segment.
  - apply (Hne e He Hhow).
  - apply (Hclean e He).
  - apply (Hlen e He).
  - apply (Hweight e He Hhow).
Qed.

Lemma length_cut_segments_are_stable_witness :
  exists tr,
    segmentTrace doubleWeight (str "==") 6 (S (length (str "ab==cdefg")))
      (str "ab==cdefg")
    = Some tr
    /\ contentSegments doubleWeight (str "==") 6 (str "ab==cdefg")
       = Some (map fst tr)
    /\ Forall (fun e => snd e <> AtSeparator ->
                        contentSegments doubleWeight (str "==") 6 (fst e)
                        = Some [fst e]) tr.
Proof.
  apply (length_cut_segments_are_stable doubleWeight (str "==") 6
           (str "ab==cdefg")).
  - intros u. unfold doubleWeight. simpl. lia.
  - discriminate.
  - lia.
Defined.
